(** * Beamforming simulator: the numerical engine of [App/Simulation.py]

    A shallow embedding of class [BeamformingSimulator] and the properties
    of its geometry generation, field accumulation, array factor and
    setters.

    Numbers.  Python floats and ints are read as real numbers (rounding and
    overflow are idealised away); a Python division by zero raises
    [ZeroDivisionError].  NumPy float64 scalars and arrays do not raise on
    a division by zero: they produce [inf] or [nan], which then propagate.
    The type [npfloat] keeps exactly that distinction. *)

From Stdlib Require Import Reals Lra Lia ZArith List Bool Psatz.
Import ListNotations.
Open Scope R_scope.

(** ** NumPy float64 values *)

Inductive npfloat : Type :=
| Fin (r : R)
| Inf (neg : bool)
| NaN.

Definition Rneg (r : R) : bool := if Rlt_dec r 0 then true else false.
Definition Rzero (r : R) : bool := if Req_dec_T r 0 then true else false.

Definition fneg (a : npfloat) : npfloat :=
  match a with
  | Fin r => Fin (- r)
  | Inf s => Inf (negb s)
  | NaN => NaN
  end.

Definition fadd (a b : npfloat) : npfloat :=
  match a, b with
  | Fin x, Fin y => Fin (x + y)
  | Fin _, Inf s => Inf s
  | Inf s, Fin _ => Inf s
  | Inf s, Inf t => if eqb s t then Inf s else NaN
  | _, _ => NaN
  end.

Definition fsub (a b : npfloat) : npfloat := fadd a (fneg b).

Definition fmul (a b : npfloat) : npfloat :=
  match a, b with
  | Fin x, Fin y => Fin (x * y)
  | Fin x, Inf s => if Rzero x then NaN else Inf (xorb (Rneg x) s)
  | Inf s, Fin y => if Rzero y then NaN else Inf (xorb s (Rneg y))
  | Inf s, Inf t => Inf (xorb s t)
  | _, _ => NaN
  end.

(** A zero divisor is the positive zero (the code only ever divides by the
    Python int [num_elements - 1] or by a guarded value). *)
Definition fdiv (a b : npfloat) : npfloat :=
  match a, b with
  | Fin x, Fin y =>
      if Rzero y then (if Rzero x then NaN else Inf (Rneg x))
      else Fin (x / y)
  | Fin _, Inf _ => Fin 0
  | Inf s, Fin y => Inf (xorb s (Rneg y))
  | Inf _, Inf _ => NaN
  | _, _ => NaN
  end.

Definition fsq (a : npfloat) : npfloat := fmul a a.

Definition fsin (a : npfloat) : npfloat :=
  match a with Fin x => Fin (sin x) | _ => NaN end.

Definition fcos (a : npfloat) : npfloat :=
  match a with Fin x => Fin (cos x) | _ => NaN end.

Definition fsqrt (a : npfloat) : npfloat :=
  match a with
  | Fin x => if Rneg x then NaN else Fin (sqrt x)
  | Inf false => Inf false
  | _ => NaN
  end.

(** [np.max] propagates [nan]. *)
Definition fmax (a b : npfloat) : npfloat :=
  match a, b with
  | NaN, _ | _, NaN => NaN
  | Inf false, _ | _, Inf false => Inf false
  | Inf true, c | c, Inf true => c
  | Fin x, Fin y => Fin (Rmax x y)
  end.

(** [np.radians]: degrees times pi/180. *)
Definition radians (d : R) : R := d * (PI / 180).

Definition fradians (a : npfloat) : npfloat := fmul a (Fin (PI / 180)).

Definition is_fin (a : npfloat) : Prop :=
  match a with Fin _ => True | _ => False end.

(** ** Complex values: [np.complex128] as a pair *)

Definition npcomplex : Type := (npfloat * npfloat)%type.

Definition czero : npcomplex := (Fin 0, Fin 0).

Definition cadd (z w : npcomplex) : npcomplex :=
  (fadd (fst z) (fst w), fadd (snd z) (snd w)).

(** [np.exp(1j * t)] for a real [t]. *)
Definition cexp_i (t : npfloat) : npcomplex := (fcos t, fsin t).

(** [np.abs] of a complex value is [hypot(re, im)]. *)
Definition cabs (z : npcomplex) : npfloat :=
  match z with
  | (Inf _, _) | (_, Inf _) => Inf false
  | (re, im) => fsqrt (fadd (fsq re) (fsq im))
  end.

(** [np.abs(z) ** 2] *)
Definition cabs2 (z : npcomplex) : npfloat := fsq (cabs z).

(** ** Array configurations and element positions *)

Record array_info : Type := mk_array_info {
  num_elements : Z;
  spacing : R;
  curvature : R
}.

Definition position : Type := (npfloat * npfloat)%type.

(** Python's [range(n)]: empty when [n <= 0]. *)
Definition range (n : Z) : list Z :=
  map Z.of_nat (seq 0 (Z.to_nat n)).

Definition calculate_element_positions
    (num_elements : Z) (element_spacing curvature_degree : R)
  : list position :=
  if Req_dec_T curvature_degree 0 then
    map (fun i : Z =>
           (Fin (IZR i * element_spacing
                 - IZR (num_elements - 1) * element_spacing / 2),
            Fin 0))
        (range num_elements)
  else
    let arc_length := IZR (num_elements - 1) * element_spacing in
    let curvature_radians := Fin (radians curvature_degree) in
    let radius :=
      if Req_dec_T (radians curvature_degree) 0 then Inf false
      else fdiv (Fin arc_length) curvature_radians in
    map (fun i : Z =>
           let angle :=
             fadd (fdiv (fneg curvature_radians) (Fin 2))
                  (fmul (Fin (IZR i))
                        (fdiv curvature_radians
                              (Fin (IZR (num_elements - 1))))) in
           let x := fsub (fmul radius (fcos angle)) radius in
           let y := fmul radius (fsin angle) in
           (x, y))
        (range num_elements).

(** ** Arrays: one- and two-dimensional, with elementwise operations *)

Fixpoint map2 {A B C : Type} (f : A -> B -> C) (l : list A) (m : list B)
  : list C :=
  match l, m with
  | a :: l', b :: m' => f a b :: map2 f l' m'
  | _, _ => []
  end.

Definition arr2 (A : Type) : Type := list (list A).

Definition arr_map {A B : Type} (f : A -> B) (a : arr2 A) : arr2 B :=
  map (map f) a.

Definition arr_map2 {A B C : Type} (f : A -> B -> C)
    (a : arr2 A) (b : arr2 B) : arr2 C :=
  map2 (map2 f) a b.

(** [np.linspace(start, stop, num)] for [num >= 2]. *)
Definition linspace (start stop : R) (num : nat) : list npfloat :=
  let step := (stop - start) / INR (num - 1) in
  map (fun i : nat => Fin (INR i * step + start)) (seq 0 num).

(** [np.meshgrid(x, y)]: both results have one row per entry of [y]. *)
Definition meshgrid (x y : list npfloat) : arr2 npfloat * arr2 npfloat :=
  (map (fun _ => x) y, map (fun yj => map (fun _ => yj) x) y).

Definition zeros_like {A : Type} (a : arr2 A) : arr2 npcomplex :=
  arr_map (fun _ => czero) a.

(** ** Exceptions and the simulator object *)

Inductive exn : Type := ZeroDivisionError | IndexError | ValueError.

Inductive result (A : Type) : Type :=
| Ok (a : A)
| Raise (e : exn).
Arguments Ok {A} a.
Arguments Raise {A} e.

Record simulator : Type := mk_simulator {
  frequency : R;
  steering_angle : R;
  arrays_info : list array_info;
  wavelength : R;
  k : R
}.

(** A method is a function of the object: it returns a value or raises,
    together with the object as it is left at that point. *)
Definition M (A : Type) : Type := simulator -> result A * simulator.

Definition ret {A : Type} (a : A) : M A := fun self => (Ok a, self).

Definition bind {A B : Type} (c : M A) (f : A -> M B) : M B :=
  fun self =>
    match c self with
    | (Ok a, self') => f a self'
    | (Raise e, self') => (Raise e, self')
    end.

Notation "x <- c ;; f" := (bind c (fun x => f))
  (at level 61, c at next level, right associativity).
Notation "c ;;; f" := (bind c (fun _ => f))
  (at level 61, right associativity).

Definition get : M simulator := fun self => (Ok self, self).

Definition lift {A : Type} (r : result A) : M A := fun self => (r, self).

Definition set_frequency (v : R) : M unit := fun self =>
  (Ok tt, mk_simulator v (steering_angle self) (arrays_info self)
                       (wavelength self) (k self)).

Definition set_steering_angle (v : R) : M unit := fun self =>
  (Ok tt, mk_simulator (frequency self) v (arrays_info self)
                       (wavelength self) (k self)).

Definition set_wavelength (v : R) : M unit := fun self =>
  (Ok tt, mk_simulator (frequency self) (steering_angle self)
                       (arrays_info self) v (k self)).

Definition set_k (v : R) : M unit := fun self =>
  (Ok tt, mk_simulator (frequency self) (steering_angle self)
                       (arrays_info self) (wavelength self) v).

(** Python float division. *)
Definition pydiv (a b : R) : result R :=
  if Req_dec_T b 0 then Raise ZeroDivisionError else Ok (a / b).

(** [l[0]] on a Python list. *)
Definition index0 {A : Type} (l : list A) : result A :=
  match l with
  | a :: _ => Ok a
  | [] => Raise IndexError
  end.

(** [np.max] of a two-dimensional array; an empty array raises. *)
Definition np_max (a : arr2 npfloat) : result npfloat :=
  match concat a with
  | v :: vs => Ok (fold_left fmax vs v)
  | [] => Raise ValueError
  end.

(** [BeamformingSimulator.__init__] *)
Definition init (frequency steering_angle : R) (arrays_info : list array_info)
  : result simulator :=
  match pydiv 3e8 frequency with
  | Raise e => Raise e
  | Ok wavelength =>
      match pydiv (2 * PI) wavelength with
      | Raise e => Raise e
      | Ok k => Ok (mk_simulator frequency steering_angle arrays_info
                                 wavelength k)
      end
  end.

(** ** The intensity map *)

(** Lines 37-39: the contribution of one element to the whole grid. *)
Definition element_field (k steering_angle one : R)
    (X Y : arr2 npfloat) (e : position) : arr2 npcomplex :=
  let '(ex, ey) := e in
  let distances :=
    arr_map fsqrt
      (arr_map2 fadd (arr_map fsq (arr_map (fun v => fsub v ex) X))
                     (arr_map fsq (arr_map (fun v => fsub v ey) Y))) in
  let phase_shift :=
    fmul (Fin (- k))
         (fadd (fmul ex (fsin (fmul (Fin one)
                                    (fradians (Fin steering_angle)))))
               (fmul ey (fcos (fradians (Fin steering_angle))))) in
  arr_map cexp_i
    (arr_map (fun d => fadd (fmul (Fin k) d) phase_shift) distances).

(** Lines 31-39: the loop over arrays and elements. *)
Definition accumulate_field (self : simulator) (X Y : arr2 npfloat)
  : arr2 npcomplex :=
  fold_left
    (fun intensity_map info =>
       let positions :=
         calculate_element_positions
           (num_elements info) (spacing info) (curvature info) in
       let one := if Req_dec_T (curvature info) 0 then -1 else 1 in
       fold_left
         (fun intensity_map e =>
            arr_map2 cadd intensity_map
              (element_field (k self) (steering_angle self) one X Y e))
         positions intensity_map)
    (arrays_info self) (zeros_like X).

Definition simulate_multiple_arrays (x_range y_range : R * R)
  : M (list npfloat * list npfloat * arr2 npfloat) :=
  self <- get ;;
  let x := linspace (fst x_range) (snd x_range) 200 in
  let y := linspace (fst y_range) (snd y_range) 200 in
  let '(X, Y) := meshgrid x y in
  let intensity_map := accumulate_field self X Y in
  let intensity := arr_map cabs2 intensity_map in
  mx <- lift (np_max intensity) ;;
  ret (x, y, arr_map (fun v => fdiv v (fadd mx (Fin 1e-10))) intensity).

(** ** The array factor *)

Definition calculate_array_factor (angles : list npfloat)
  : M (list npfloat) :=
  self <- get ;;
  let array_factor := map (fun _ => czero) angles in
  first <- lift (index0 (arrays_info self)) ;;
  let positions :=
    calculate_element_positions
      (num_elements first) (spacing first) (curvature first) in
  let array_factor :=
    fold_left
      (fun array_factor (e : position) =>
         let '(x, y) := e in
         let phase_shift :=
           fmul (Fin (- k self))
                (fadd (fmul x (fsin (fradians (Fin (steering_angle self)))))
                      (fmul y (fcos (fradians (Fin (steering_angle self))))))
         in
         map2 cadd array_factor
           (map cexp_i
              (map (fun t => fadd (fmul (Fin (k self)) t) phase_shift)
                 (map2 fadd
                    (map (fmul x) (map fsin (map fradians angles)))
                    (map (fmul y) (map fcos (map fradians angles)))))))
      positions array_factor in
  ret (map cabs2 array_factor).

(** ** Setters *)

Definition update_operating_frequency (frequency' : R) : M unit :=
  set_frequency frequency' ;;;
  self <- get ;;
  w <- lift (pydiv 3e8 (frequency self)) ;;
  set_wavelength w ;;;
  self <- get ;;
  kk <- lift (pydiv (2 * PI) (wavelength self)) ;;
  set_k kk.

Definition update_steering_angle (steering_angle' : R) : M unit :=
  set_steering_angle steering_angle'.

(** ** The configuration widget: [App/UI/ArrayVisualizationWidget.py]

    Only the list [array_configs] is state of interest; [self.update()]
    schedules a repaint and does not touch it.  An entry is the tuple
    [(spacing, num_elements, curvature_angle)]. *)

Definition config : Type := (R * Z * R)%type.

Definition len {A : Type} (l : list A) : Z := Z.of_nat (length l).

Definition addArray (spacing : R) (num_elements : Z) (curvature_angle : R)
    (array_configs : list config) : list config :=
  array_configs ++ [(spacing, num_elements, curvature_angle)].

(** [l[0] = v] *)
Definition set0 {A : Type} (v : A) (l : list A) : result (list A) :=
  match l with
  | [] => Raise IndexError
  | _ :: rest => Ok (v :: rest)
  end.

Definition editArray (index : Z) (spacing : R) (num_elements : Z)
    (curvature_angle : R) (array_configs : list config)
  : result (list config) :=
  let zero_based_index := 0%Z in
  if ((0 <=? zero_based_index) && (zero_based_index <? len array_configs))%Z
  then set0 (spacing, num_elements, curvature_angle) array_configs
  else Raise ValueError.

(** [l[:stop]]: a negative [stop] counts from the end. *)
Definition slice_to {A : Type} (stop : Z) (l : list A) : list A :=
  if (stop <? 0)%Z then firstn (Z.to_nat (len l + stop)) l
  else firstn (Z.to_nat stop) l.

Definition updateArrayNumber (array_num : Z) (array_configs : list config)
  : list config :=
  let target_length := array_num in
  let current_length := len array_configs in
  if (target_length >? current_length)%Z then array_configs
  else if (target_length <? current_length)%Z
       then slice_to target_length array_configs
       else array_configs.

Definition get_array_configuration (index : Z) (array_configs : list config)
  : result config :=
  let zero_based_index := (index - 1)%Z in
  if ((0 <=? zero_based_index) && (zero_based_index <? len array_configs))%Z
  then match nth_error array_configs (Z.to_nat zero_based_index) with
       | Some c => Ok c
       | None => Raise IndexError
       end
  else Raise IndexError.

(** ** The controller: [App/Controller.py]

    [self.configurations] is the very list passed to the simulator's
    constructor, so it is the simulator's [arrays_info]: clearing and
    refilling it changes what the simulator reads. *)

Definition clear_configurations : M unit := fun self =>
  (Ok tt, mk_simulator (frequency self) (steering_angle self) []
                       (wavelength self) (k self)).

Definition append_configuration (info : array_info) : M unit := fun self =>
  (Ok tt, mk_simulator (frequency self) (steering_angle self)
                       (arrays_info self ++ [info])
                       (wavelength self) (k self)).

Fixpoint for_each {A : Type} (l : list A) (body : A -> M unit) : M unit :=
  match l with
  | [] => ret tt
  | a :: l' => body a ;;; for_each l' body
  end.

(** Python's [range(a, b)]. *)
Definition range_from (a b : Z) : list Z :=
  map (fun j : nat => (a + Z.of_nat j)%Z) (seq 0 (Z.to_nat (b - a))).

Definition default_info : array_info := mk_array_info 64 0.05 0.

(** Lines 154-173 of [update_and_refresh_arrays_info], the first part of
    the method: the list is cleared and refilled from the widget, one
    entry per array number, with the default entry when the widget raises
    [IndexError]. *)
Definition refill_configurations (array_configs : list config)
    (current_arrays_number : Z) : M unit :=
  clear_configurations ;;;
  for_each (range_from 1 (current_arrays_number + 1))
    (fun i =>
       match get_array_configuration i array_configs with
       | Ok (spacing, num_elements, curvature) =>
           append_configuration
             (mk_array_info num_elements spacing curvature)
       | Raise IndexError => append_configuration default_info
       | Raise e => lift (Raise e)
       end).

(** Python's [min] and [max] of a list; an empty list raises. *)
Definition py_min (l : list R) : result R :=
  match l with
  | [] => Raise ValueError
  | v :: vs => Ok (fold_left Rmin vs v)
  end.

Definition py_max (l : list R) : result R :=
  match l with
  | [] => Raise ValueError
  | v :: vs => Ok (fold_left Rmax vs v)
  end.

(** Lines 129-133 of [array_visualize]: the plotted coordinates. *)
Definition visualize_coords (num_elements : Z) (spacing curvature_degrees : R)
  : list R * list R :=
  let curvature_degrees := Rmax 0 (Rmin curvature_degrees 180) in
  let a := curvature_degrees / 10 in
  let center_index := IZR (num_elements - 1) / 2 in
  let x_coords :=
    map (fun i : Z => (IZR i - center_index) * spacing)
        (range num_elements) in
  let y_coords := map (fun x => a * x ^ 2) x_coords in
  (x_coords, y_coords).

(** Lines 143-149 of [array_visualize]: the axis ranges handed to
    [setXRange] and [setYRange]. *)
Definition visualize_ranges (num_elements : Z) (spacing curvature_degrees : R)
  : result ((R * R) * (R * R)) :=
  let '(x_coords, y_coords) :=
    visualize_coords num_elements spacing curvature_degrees in
  match py_min x_coords, py_max x_coords, py_min y_coords, py_max y_coords with
  | Ok x_min, Ok x_max, Ok y_min, Ok y_max =>
      let x_padding := spacing * 0.5 in
      let y_range := y_max - y_min in
      let y_padding := if Rlt_dec 0 y_range then y_range * 0.5 else 1 in
      Ok ((x_min - x_padding, x_max + x_padding),
          (y_min - y_padding, y_max + y_padding))
  | Raise e, _, _, _ => Raise e
  | _, Raise e, _, _ => Raise e
  | _, _, Raise e, _ => Raise e
  | _, _, _, Raise e => Raise e
  end.

(** [apply_configurations_to_visualization], lines 183-188: the two
    computations whose results are handed to the plots.  The plot calls
    that follow them are taken not to raise. *)
Definition apply_configurations_to_visualization
  : M (arr2 npfloat * list npfloat) :=
  let x_range := (-10, 10) in
  let y_range := (0, 10) in
  r <- simulate_multiple_arrays x_range y_range ;;
  let '(x, y, intensity) := r in
  let angles := linspace (-90) 90 500 in
  array_factor <- calculate_array_factor angles ;;
  ret (intensity, array_factor).

(** [update_and_refresh_arrays_info], lines 152-179, whole: the refill of
    the list, the lookup of array 1 outside the [try] (line 175), the
    drawing of the array shape with the slider value as spacing (line
    176, its plot calls taken not to raise) and the recomputation of map
    and beam profile (line 179).  The value is what reaches the plots. *)
Definition update_and_refresh_arrays_info (array_configs : list config)
    (current_arrays_number : Z) (slider_value : R)
  : M (arr2 npfloat * list npfloat) :=
  refill_configurations array_configs current_arrays_number ;;;
  first <- lift (get_array_configuration 1 array_configs) ;;
  let '(spacing, num_elements, curvature) := first in
  lift (visualize_ranges num_elements slider_value curvature) ;;;
  apply_configurations_to_visualization.

(** Lines 70-75 of [toggle_scenario]: the next preset. *)
Inductive scenario : Type := FiveG | Ultrasound | TumorAblation.

Definition scenarios : list scenario := [FiveG; Ultrasound; TumorAblation].

(** [scenarios.index(s)] *)
Definition scenario_index (s : scenario) : Z :=
  match s with
  | FiveG => 0
  | Ultrasound => 1
  | TumorAblation => 2
  end%Z.

Definition next_scenario (current_scenario : option scenario) : scenario :=
  match current_scenario with
  | None => FiveG
  | Some s =>
      nth (Z.to_nat ((scenario_index s + 1) mod len scenarios)) scenarios
          FiveG
  end.

(** ** Reference definitions, following the specification's wording *)

(** Straight array: x-coordinate of element [i]. *)
Definition linear_x (n : Z) (s : R) (i : Z) : R :=
  IZR i * s - (IZR n - 1) * s / 2.

(** Curved array: radius = arc length / curvature in radians. *)
Definition arc_radius (n : Z) (s c : R) : R :=
  (IZR n - 1) * s / radians c.

(** Curved array: angle of element [i], equal increments centred on 0. *)
Definition arc_angle (n : Z) (c : R) (i : Z) : R :=
  - radians c / 2 + IZR i * (radians c / (IZR n - 1)).

Definition arc_position (n : Z) (s c : R) (i : Z) : R * R :=
  (arc_radius n s c * cos (arc_angle n c i) - arc_radius n s c,
   arc_radius n s c * sin (arc_angle n c i)).

(** A grid given pointwise: row [j], column [i] holds [h x_i y_j]. *)
Definition grid {A : Type} (x y : list npfloat)
    (h : npfloat -> npfloat -> A) : arr2 A :=
  map (fun yj => map (fun xi => h xi yj) x) y.

(** The sign applied to the steering angle: -1 for a straight array. *)
Definition sigma (info : array_info) : R :=
  if Req_dec_T (curvature info) 0 then -1 else 1.

(** All elements of all arrays, each with the sign of its array. *)
Definition elements (arrays : list array_info) : list (R * position) :=
  flat_map
    (fun info =>
       map (fun e => (sigma info, e))
           (calculate_element_positions
              (num_elements info) (spacing info) (curvature info)))
    arrays.

(** Euclidean distance from the grid point [(gx, gy)] to an element. *)
Definition distance (gx gy : npfloat) (e : position) : npfloat :=
  fsqrt (fadd (fsq (fsub gx (fst e))) (fsq (fsub gy (snd e)))).

(** phi = -k (ex sin(sigma steering_rad) + ey cos(steering_rad)) *)
Definition steering_phase (k steering_angle sig : R) (e : position)
  : npfloat :=
  fmul (Fin (- k))
       (fadd (fmul (fst e) (Fin (sin (sig * radians steering_angle))))
             (fmul (snd e) (Fin (cos (radians steering_angle))))).

Definition csum (l : list npcomplex) : npcomplex :=
  fold_left cadd l czero.

(** The field at a grid point: the sum of exp(i (k distance + phi)). *)
Definition spec_field (self : simulator) (gx gy : npfloat) : npcomplex :=
  csum
    (map (fun se : R * position =>
            cexp_i (fadd (fmul (Fin (k self)) (distance gx gy (snd se)))
                         (steering_phase (k self) (steering_angle self)
                                         (fst se) (snd se))))
         (elements (arrays_info self))).

Definition squared_magnitude (z : npcomplex) : npfloat :=
  fadd (fsq (fst z)) (fsq (snd z)).

(** phi = -k (x sin(steering_rad) + y cos(steering_rad)), no sign. *)
Definition plain_steering_phase (k steering_angle : R) (e : position)
  : npfloat :=
  fmul (Fin (- k))
       (fadd (fmul (fst e) (Fin (sin (radians steering_angle))))
             (fmul (snd e) (Fin (cos (radians steering_angle))))).

(** The array factor at angle [theta] for one array. *)
Definition spec_array_factor (k steering_angle : R) (info : array_info)
    (theta : npfloat) : npfloat :=
  squared_magnitude
    (csum
       (map (fun e : position =>
               cexp_i
                 (fadd
                    (fmul (Fin k)
                          (fadd (fmul (fst e) (fsin (fradians theta)))
                                (fmul (snd e) (fcos (fradians theta)))))
                    (plain_steering_phase k steering_angle e)))
            (calculate_element_positions
               (num_elements info) (spacing info) (curvature info)))).

Definition no_inf (a : npfloat) : Prop :=
  match a with Inf _ => False | _ => True end.

(** The real number held by a finite value. *)
Definition to_R (a : npfloat) : R :=
  match a with Fin r => r | _ => 0 end.

Definition fin_position (e : position) : Prop :=
  is_fin (fst e) /\ is_fin (snd e).

(** An array whose positions are all finite: every array except a single
    element on a curved arc. *)
Definition finite_geometry (info : array_info) : Prop :=
  num_elements info <> 1%Z \/ curvature info = 0.

(** Intensity before normalisation at a finite grid point, as a real. *)
Definition intensity_R (self : simulator) (gx gy : npfloat) : R :=
  to_R (squared_magnitude (spec_field self gx gy)).

Definition Rmax_list (l : list R) : R :=
  match l with
  | [] => 0
  | v :: vs => fold_left Rmax vs v
  end.

(** The sample points of [np.linspace], as reals. *)
Definition samples (start stop : R) (num : nat) : list R :=
  map (fun i : nat => INR i * ((stop - start) / INR (num - 1)) + start)
      (seq 0 num).

(** Phase of element [i] of a straight array at angle [t] (degrees). *)
Definition linear_phase (kk st : R) (n : Z) (s t : R) (i : Z) : R :=
  kk * (linear_x n s i * sin (radians t) + 0 * cos (radians t))
  + - kk * (linear_x n s i * sin (radians st) + 0 * cos (radians st)).

(** Array factor of a straight array at angle [t], as a real. *)
Definition linear_af (kk st : R) (n : Z) (s t : R) : R :=
  let re :=
    fold_left (fun acc i => acc + cos (linear_phase kk st n s t i))
              (range n) 0 in
  let im :=
    fold_left (fun acc i => acc + sin (linear_phase kk st n s t i))
              (range n) 0 in
  re * re + im * im.

(** Entry number [i] (from 1) of the refreshed configuration list. *)
Definition refreshed_entry (array_configs : list config) (i : Z)
  : array_info :=
  match nth_error array_configs (Z.to_nat (i - 1)) with
  | Some (spacing, num_elements, curvature) =>
      mk_array_info num_elements spacing curvature
  | None => default_info
  end.

(** The simulator after the refill. *)
Definition refilled (cfgs : list config) (num : Z) (self : simulator)
  : simulator :=
  mk_simulator (frequency self) (steering_angle self)
               (map (refreshed_entry cfgs) (range_from 1 (num + 1)))
               (wavelength self) (k self).

(** * Properties *)

(** ** Decisions on reals *)

Lemma Rzero_false (r : R) : r <> 0 -> Rzero r = false.
Proof. intros H. unfold Rzero. destruct (Req_dec_T r 0); [contradiction | reflexivity]. Qed.

Lemma Rzero_true : Rzero 0 = true.
Proof. unfold Rzero. destruct (Req_dec_T 0 0); [reflexivity | contradiction]. Qed.

Lemma Rneg_false (r : R) : 0 <= r -> Rneg r = false.
Proof. intros H. unfold Rneg. destruct (Rlt_dec r 0); [lra | reflexivity]. Qed.

Lemma sum_sq_nonneg (x y : R) : 0 <= x * x + y * y.
Proof. nra. Qed.

Lemma radians_neq_0 (d : R) : d <> 0 -> radians d <> 0.
Proof.
  intros Hd. unfold radians.
  pose proof PI_RGT_0 as Hpi.
  apply Rmult_integral_contrapositive_currified; [exact Hd | lra].
Qed.

Lemma Fin_inj (a b : R) : Fin a = Fin b -> a = b.
Proof. intros H. injection H as H. exact H. Qed.

Lemma fdiv_fin (x y : R) : y <> 0 -> fdiv (Fin x) (Fin y) = Fin (x / y).
Proof. intros H. simpl. rewrite (Rzero_false _ H). reflexivity. Qed.

(** ** Geometry *)

Lemma range_length (n : Z) : length (range n) = Z.to_nat n.
Proof. unfold range. rewrite length_map, length_seq. reflexivity. Qed.

Lemma positions_linear (n : Z) (s : R) :
  calculate_element_positions n s 0
  = map (fun i => (Fin (linear_x n s i), Fin 0)) (range n).
Proof.
  unfold calculate_element_positions.
  destruct (Req_dec_T 0 0) as [_ | H]; [| contradiction].
  apply map_ext. intros i. unfold linear_x. rewrite minus_IZR.
  reflexivity.
Qed.

Lemma positions_curved (n : Z) (s c : R) :
  c <> 0 -> n <> 1%Z ->
  calculate_element_positions n s c
  = map (fun i => (Fin (fst (arc_position n s c i)),
                   Fin (snd (arc_position n s c i)))) (range n).
Proof.
  intros Hc Hn. unfold calculate_element_positions.
  destruct (Req_dec_T c 0) as [H | _]; [contradiction |].
  pose proof (radians_neq_0 c Hc) as Hr.
  destruct (Req_dec_T (radians c) 0) as [H | _]; [contradiction |].
  assert (Hn1 : IZR (n - 1) <> 0).
  { intros H. apply eq_IZR_R0 in H. lia. }
  apply map_ext. intros i.
  rewrite (fdiv_fin _ _ Hr), (fdiv_fin _ _ Hn1).
  cbn [fneg]. rewrite fdiv_fin by lra.
  cbn [fmul fadd fcos fsin fsub fneg].
  unfold arc_position, arc_radius, arc_angle. cbn [fst snd].
  rewrite minus_IZR. reflexivity.
Qed.

(** A single element on a curved array: the angular step divides by
    [num_elements - 1 = 0], giving [inf]; [0 * inf] is [nan], and the
    [nan] angle spreads to both coordinates. *)
Lemma positions_single_curved (s c : R) :
  c <> 0 -> calculate_element_positions 1 s c = [(NaN, NaN)].
Proof.
  intros Hc. unfold calculate_element_positions.
  destruct (Req_dec_T c 0) as [H | _]; [contradiction |].
  pose proof (radians_neq_0 c Hc) as Hr.
  destruct (Req_dec_T (radians c) 0) as [H | _]; [contradiction |].
  change (range 1) with [0%Z]. change (1 - 1)%Z with 0%Z. cbn [map].
  rewrite (fdiv_fin _ _ Hr).
  replace (fdiv (Fin (radians c)) (Fin 0)) with (Inf (Rneg (radians c))).
  2:{ simpl. rewrite Rzero_true, (Rzero_false _ Hr). reflexivity. }
  replace (fmul (Fin 0) (Inf (Rneg (radians c)))) with NaN.
  2:{ simpl. rewrite Rzero_true. reflexivity. }
  cbn [fneg]. rewrite fdiv_fin by lra.
  reflexivity.
Qed.

Lemma linear_x_symmetric (n : Z) (s : R) (i : Z) :
  linear_x n s (n - 1 - i) = - linear_x n s i.
Proof. unfold linear_x. rewrite !minus_IZR. lra. Qed.

Lemma linear_x_step (n : Z) (s : R) (i : Z) :
  linear_x n s (i + 1) - linear_x n s i = s.
Proof. unfold linear_x. rewrite plus_IZR. lra. Qed.

Lemma arc_position_on_circle (n : Z) (s c : R) (i : Z) :
  let r := arc_radius n s c in
  (fst (arc_position n s c i) + r) ^ 2 + snd (arc_position n s c i) ^ 2
  = r ^ 2.
Proof.
  intros r. unfold arc_position. cbn [fst snd]. fold r.
  pose proof (sin2_cos2 (arc_angle n c i)) as H. unfold Rsqr in H.
  nra.
Qed.

Lemma arc_angle_step (n : Z) (c : R) (i : Z) :
  arc_angle n c (i + 1) - arc_angle n c i = radians c / (IZR n - 1).
Proof. unfold arc_angle. rewrite plus_IZR. lra. Qed.

Lemma arc_angle_first (n : Z) (c : R) : arc_angle n c 0 = - radians c / 2.
Proof. unfold arc_angle. lra. Qed.

Lemma arc_angle_last (n : Z) (c : R) :
  (2 <= n)%Z -> arc_angle n c (n - 1) = radians c / 2.
Proof.
  intros Hn. unfold arc_angle. rewrite minus_IZR.
  assert (IZR n - 1 <> 0).
  { apply IZR_le in Hn. lra. }
  field. assumption.
Qed.

(** C2: for [n >= 2] elements and positive spacing, a straight array
    (curvature 0) has element [i] at [(i*s - (n-1)*s/2, 0)], so the
    positions are symmetric about x = 0, [s] apart and on the x-axis; a
    curved array has element [i] at [(r*cos a_i - r, r*sin a_i)] with
    [r = (n-1)*s / radians(curvature)] and
    [a_i = -c/2 + i*c/(n-1)], so every position lies on the circle of
    radius [r] centred at [(-r, 0)] and the angles run from [-c/2] to
    [c/2] in equal steps. *)
Theorem element_positions_formula (n : Z) (s c : R) :
  (2 <= n)%Z -> 0 < s ->
  (c = 0 ->
     calculate_element_positions n s c
     = map (fun i => (Fin (linear_x n s i), Fin 0)) (range n)
     /\ (forall i, linear_x n s (n - 1 - i) = - linear_x n s i)
     /\ (forall i, linear_x n s (i + 1) - linear_x n s i = s))
  /\
  (c <> 0 ->
     let r := arc_radius n s c in
     calculate_element_positions n s c
     = map (fun i => (Fin (r * cos (arc_angle n c i) - r),
                      Fin (r * sin (arc_angle n c i)))) (range n)
     /\ (forall i,
           ((r * cos (arc_angle n c i) - r) + r) ^ 2
           + (r * sin (arc_angle n c i)) ^ 2 = r ^ 2)
     /\ arc_angle n c 0 = - radians c / 2
     /\ arc_angle n c (n - 1) = radians c / 2
     /\ (forall i,
           arc_angle n c (i + 1) - arc_angle n c i
           = radians c / (IZR n - 1))).
Proof.
  intros Hn Hs. split.
  - intros ->. split; [apply positions_linear |].
    split; intros i; [apply linear_x_symmetric | apply linear_x_step].
  - intros Hc r. split.
    { rewrite positions_curved by (assumption || lia). reflexivity. }
    split.
    { intros i. exact (arc_position_on_circle n s c i). }
    split; [apply arc_angle_first |].
    split; [apply arc_angle_last; assumption |].
    intros i. apply arc_angle_step.
Qed.

Lemma element_positions_formula_witness :
  (2 <= 2)%Z /\ 0 < 1 /\
  calculate_element_positions 2 1 0
  = map (fun i => (Fin (linear_x 2 1 i), Fin 0)) (range 2).
Proof.
  split; [lia |]. split; [lra |].
  exact (proj1 (proj1 (element_positions_formula 2 1 0
                         ltac:(lia) ltac:(lra)) eq_refl)).
Defined.

(** C7: with a single element the straight branch returns the origin, but
    the curved branch divides the arc angle by [num_elements - 1 = 0]
    without a guard and returns one position whose coordinates are both
    [nan]. *)
Theorem single_element_positions :
  calculate_element_positions 1 1 0 = [(Fin 0, Fin 0)]
  /\ calculate_element_positions 1 1 90 = [(NaN, NaN)]
  /\ calculate_element_positions 1 1 90 <> [(Fin 0, Fin 0)].
Proof.
  assert (H90 : calculate_element_positions 1 1 90 = [(NaN, NaN)]).
  { apply positions_single_curved. lra. }
  split.
  - rewrite positions_linear. change (range 1) with [0%Z]. cbn [map].
    unfold linear_x. do 3 f_equal. lra.
  - split; [exact H90 |]. rewrite H90. discriminate.
Qed.

(** ** Elementwise operations on arrays given pointwise *)

Lemma map2_map {A B C D : Type} (f : B -> C -> D) (g : A -> B) (h : A -> C)
    (l : list A) :
  map2 f (map g l) (map h l) = map (fun a => f (g a) (h a)) l.
Proof. induction l as [| a l IH]; simpl; [| rewrite IH]; reflexivity. Qed.

Lemma grid_ext {A : Type} (x y : list npfloat)
    (h g : npfloat -> npfloat -> A) :
  (forall a b, h a b = g a b) -> grid x y h = grid x y g.
Proof.
  intros H. unfold grid. apply map_ext. intros b.
  apply map_ext. intros a. apply H.
Qed.

Lemma arr_map_grid {A B : Type} (f : A -> B) (x y : list npfloat)
    (h : npfloat -> npfloat -> A) :
  arr_map f (grid x y h) = grid x y (fun a b => f (h a b)).
Proof.
  unfold arr_map, grid. rewrite map_map. apply map_ext. intros b.
  apply map_map.
Qed.

Lemma arr_map2_grid {A B C : Type} (f : A -> B -> C) (x y : list npfloat)
    (h : npfloat -> npfloat -> A) (g : npfloat -> npfloat -> B) :
  arr_map2 f (grid x y h) (grid x y g)
  = grid x y (fun a b => f (h a b) (g a b)).
Proof.
  unfold arr_map2, grid. rewrite map2_map. apply map_ext. intros b.
  apply map2_map.
Qed.

Lemma meshgrid_grid (x y : list npfloat) :
  meshgrid x y = (grid x y (fun a _ => a), grid x y (fun _ b => b)).
Proof.
  unfold meshgrid, grid. rewrite map_id. reflexivity.
Qed.

(** ** The accumulated field, point by point *)

(** The term one element adds at the grid point [(gx, gy)]. *)
Lemma element_field_grid (kk st one : R) (x y : list npfloat)
    (e : position) :
  element_field kk st one (grid x y (fun a _ => a)) (grid x y (fun _ b => b))
                e
  = grid x y (fun gx gy =>
                cexp_i (fadd (fmul (Fin kk) (distance gx gy e))
                             (steering_phase kk st one e))).
Proof.
  destruct e as [ex ey]. unfold element_field.
  rewrite !arr_map_grid, arr_map2_grid, !arr_map_grid.
  apply grid_ext. intros a b. reflexivity.
Qed.

Lemma fold_left_grid {A E : Type} (f : A -> A -> A)
    (t : E -> npfloat -> npfloat -> A) (x y : list npfloat) (es : list E) :
  forall h : npfloat -> npfloat -> A,
    fold_left (fun acc e => arr_map2 f acc (grid x y (t e))) es (grid x y h)
    = grid x y (fun a b => fold_left (fun z e => f z (t e a b)) es (h a b)).
Proof.
  induction es as [| e es IH]; intros h; simpl.
  - reflexivity.
  - rewrite arr_map2_grid. apply IH.
Qed.

Lemma fold_left_map {A B C : Type} (f : A -> B -> A) (g : C -> B)
    (l : list C) :
  forall a, fold_left f (map g l) a = fold_left (fun z c => f z (g c)) l a.
Proof. induction l as [| c l IH]; intros a; simpl; [| rewrite IH]; reflexivity. Qed.

Lemma fold_left_ext {A B : Type} (f g : A -> B -> A) (l : list B) :
  (forall a b, f a b = g a b) ->
  forall a, fold_left f l a = fold_left g l a.
Proof.
  intros H. induction l as [| b l IH]; intros a; simpl.
  - reflexivity.
  - rewrite H. apply IH.
Qed.

Lemma accumulate_loop_grid (kk st : R) (x y : list npfloat)
    (infos : list array_info) :
  forall h : npfloat -> npfloat -> npcomplex,
    fold_left
      (fun intensity_map info =>
         fold_left
           (fun intensity_map e =>
              arr_map2 cadd intensity_map
                (element_field kk st
                   (if Req_dec_T (curvature info) 0 then -1 else 1)
                   (grid x y (fun a _ => a)) (grid x y (fun _ b => b)) e))
           (calculate_element_positions
              (num_elements info) (spacing info) (curvature info))
           intensity_map)
      infos (grid x y h)
    = grid x y
        (fun gx gy =>
           fold_left cadd
             (map (fun se : R * position =>
                     cexp_i (fadd (fmul (Fin kk) (distance gx gy (snd se)))
                               (steering_phase kk st (fst se) (snd se))))
                  (elements infos))
             (h gx gy)).
Proof.
  induction infos as [| info infos IH]; intros h.
  - reflexivity.
  - cbn [fold_left]. unfold elements. cbn [flat_map]. fold (elements infos).
    rewrite (fold_left_ext _
               (fun acc e =>
                  arr_map2 cadd acc
                    (grid x y (fun gx gy =>
                       cexp_i (fadd (fmul (Fin kk) (distance gx gy e))
                                 (steering_phase kk st (sigma info) e))))))
      by (intros acc e; rewrite element_field_grid; reflexivity).
    rewrite fold_left_grid, IH.
    apply grid_ext. intros a b.
    rewrite map_app, fold_left_app. f_equal.
    rewrite map_map, fold_left_map. reflexivity.
Qed.

Lemma accumulate_field_grid (self : simulator) (x y : list npfloat) :
  accumulate_field self (grid x y (fun a _ => a)) (grid x y (fun _ b => b))
  = grid x y (spec_field self).
Proof.
  unfold accumulate_field, zeros_like. rewrite arr_map_grid.
  apply accumulate_loop_grid.
Qed.

(** ** Squared magnitude *)

Lemma fadd_no_inf (a b : npfloat) : no_inf a -> no_inf b -> no_inf (fadd a b).
Proof. destruct a, b; simpl; tauto. Qed.

Lemma cexp_i_no_inf (t : npfloat) :
  no_inf (fst (cexp_i t)) /\ no_inf (snd (cexp_i t)).
Proof. destruct t; simpl; tauto. Qed.

Lemma fold_cadd_no_inf (l : list npcomplex) :
  (forall z, In z l -> no_inf (fst z) /\ no_inf (snd z)) ->
  forall z0, no_inf (fst z0) /\ no_inf (snd z0) ->
    no_inf (fst (fold_left cadd l z0)) /\ no_inf (snd (fold_left cadd l z0)).
Proof.
  induction l as [| w l IH]; intros Hl z0 Hz0; simpl.
  - exact Hz0.
  - apply IH.
    + intros z Hz. apply Hl. right. exact Hz.
    + destruct (Hl w (or_introl eq_refl)) as [Hw1 Hw2].
      destruct Hz0 as [Hz1 Hz2].
      split; simpl; apply fadd_no_inf; assumption.
Qed.

Lemma csum_cexp_no_inf {E : Type} (t : E -> npfloat) (l : list E) :
  no_inf (fst (csum (map (fun e => cexp_i (t e)) l)))
  /\ no_inf (snd (csum (map (fun e => cexp_i (t e)) l))).
Proof.
  unfold csum. apply fold_cadd_no_inf.
  - intros z Hz. apply in_map_iff in Hz. destruct Hz as [e [<- _]].
    apply cexp_i_no_inf.
  - simpl. tauto.
Qed.

Lemma cabs2_fin (a b : R) : cabs2 (Fin a, Fin b) = Fin (a * a + b * b).
Proof.
  unfold cabs2, cabs, fsq. cbn [fmul fadd fsqrt].
  rewrite Rneg_false by apply sum_sq_nonneg. cbn [fmul].
  rewrite sqrt_sqrt by apply sum_sq_nonneg. reflexivity.
Qed.

(** [np.abs(z) ** 2] is the squared magnitude (for finite and [nan]
    components alike). *)
Lemma cabs2_squared_magnitude (z : npcomplex) :
  no_inf (fst z) -> no_inf (snd z) -> cabs2 z = squared_magnitude z.
Proof.
  destruct z as [[a | sa |] [b | sb |]]; simpl; intros H1 H2;
    try contradiction; try reflexivity.
  apply cabs2_fin.
Qed.

Lemma spec_field_no_inf (self : simulator) (gx gy : npfloat) :
  no_inf (fst (spec_field self gx gy)) /\ no_inf (snd (spec_field self gx gy)).
Proof. unfold spec_field. apply csum_cexp_no_inf. Qed.

Lemma accumulate_field_meshgrid (self : simulator) (x y : list npfloat) :
  accumulate_field self (fst (meshgrid x y)) (snd (meshgrid x y))
  = grid x y (spec_field self).
Proof. rewrite meshgrid_grid. cbn [fst snd]. apply accumulate_field_grid. Qed.

Lemma intensity_meshgrid (self : simulator) (x y : list npfloat) :
  arr_map cabs2
    (accumulate_field self (fst (meshgrid x y)) (snd (meshgrid x y)))
  = grid x y (fun gx gy => squared_magnitude (spec_field self gx gy)).
Proof.
  rewrite accumulate_field_meshgrid, arr_map_grid. apply grid_ext.
  intros a b. apply cabs2_squared_magnitude; apply spec_field_no_inf.
Qed.

Lemma simulate_multiple_arrays_eq (self : simulator) (x_range y_range : R * R) :
  let x := linspace (fst x_range) (snd x_range) 200 in
  let y := linspace (fst y_range) (snd y_range) 200 in
  let intensity :=
    grid x y (fun gx gy => squared_magnitude (spec_field self gx gy)) in
  simulate_multiple_arrays x_range y_range self
  = (match np_max intensity with
     | Ok mx =>
         Ok (x, y, arr_map (fun v => fdiv v (fadd mx (Fin 1e-10))) intensity)
     | Raise e => Raise e
     end, self).
Proof.
  intros x y intensity.
  unfold simulate_multiple_arrays, bind, get, lift, ret.
  fold x y. rewrite (surjective_pairing (meshgrid x y)).
  rewrite intensity_meshgrid. fold intensity.
  destruct (np_max intensity); reflexivity.
Qed.

(** C1: on the 200 x 200 grid the loop of [simulate_multiple_arrays]
    accumulates, at every grid point, the sum over all elements of all
    arrays of exp(i (k distance + phi)), with
    phi = -k (ex sin(sigma steering_rad) + ey cos(steering_rad)) and
    sigma = -1 exactly for arrays of curvature 0; the intensity before
    normalisation is the squared magnitude of that sum, and the method
    returns this intensity divided by its maximum plus 1e-10. *)
Theorem field_is_sum_over_elements (self : simulator) (x_range y_range : R * R) :
  let x := linspace (fst x_range) (snd x_range) 200 in
  let y := linspace (fst y_range) (snd y_range) 200 in
  let intensity :=
    grid x y (fun gx gy => squared_magnitude (spec_field self gx gy)) in
  accumulate_field self (fst (meshgrid x y)) (snd (meshgrid x y))
  = grid x y (spec_field self)
  /\ arr_map cabs2
       (accumulate_field self (fst (meshgrid x y)) (snd (meshgrid x y)))
     = intensity
  /\ simulate_multiple_arrays x_range y_range self
     = (match np_max intensity with
        | Ok mx =>
            Ok (x, y, arr_map (fun v => fdiv v (fadd mx (Fin 1e-10))) intensity)
        | Raise e => Raise e
        end, self).
Proof.
  intros x y intensity.
  split; [apply accumulate_field_meshgrid |].
  split; [apply intensity_meshgrid |].
  apply simulate_multiple_arrays_eq.
Qed.

(** ** The array factor, angle by angle *)

Lemma fold_left_map2_pointwise {A E T : Type} (f : A -> A -> A)
    (t : E -> T -> A) (l : list T) (es : list E) :
  forall h : T -> A,
    fold_left (fun acc e => map2 f acc (map (t e) l)) es (map h l)
    = map (fun a => fold_left (fun z e => f z (t e a)) es (h a)) l.
Proof.
  induction es as [| e es IH]; intros h; simpl.
  - reflexivity.
  - rewrite map2_map. apply IH.
Qed.

Lemma array_factor_loop (kk st : R) (angles : list npfloat)
    (positions : list position) :
  fold_left
    (fun array_factor (e : position) =>
       let '(x, y) := e in
       let phase_shift :=
         fmul (Fin (- kk))
              (fadd (fmul x (fsin (fradians (Fin st))))
                    (fmul y (fcos (fradians (Fin st))))) in
       map2 cadd array_factor
         (map cexp_i
            (map (fun t => fadd (fmul (Fin kk) t) phase_shift)
               (map2 fadd
                  (map (fmul x) (map fsin (map fradians angles)))
                  (map (fmul y) (map fcos (map fradians angles)))))))
    positions (map (fun _ => czero) angles)
  = map (fun theta =>
           csum
             (map (fun e : position =>
                     cexp_i
                       (fadd
                          (fmul (Fin kk)
                             (fadd (fmul (fst e) (fsin (fradians theta)))
                                   (fmul (snd e) (fcos (fradians theta)))))
                          (plain_steering_phase kk st e)))
                  positions))
        angles.
Proof.
  rewrite (fold_left_ext _
             (fun acc e =>
                map2 cadd acc
                  (map (fun theta =>
                          cexp_i
                            (fadd
                               (fmul (Fin kk)
                                  (fadd (fmul (fst e) (fsin (fradians theta)))
                                     (fmul (snd e) (fcos (fradians theta)))))
                               (plain_steering_phase kk st e)))
                       angles))).
  2:{ intros acc [x y]. cbn [fst snd]. f_equal.
      rewrite !map_map, map2_map, !map_map. reflexivity. }
  rewrite (fold_left_map2_pointwise cadd
             (fun e theta =>
                cexp_i
                  (fadd
                     (fmul (Fin kk)
                        (fadd (fmul (fst e) (fsin (fradians theta)))
                           (fmul (snd e) (fcos (fradians theta)))))
                     (plain_steering_phase kk st e)))).
  apply map_ext. intros theta. unfold csum. rewrite fold_left_map.
  reflexivity.
Qed.

Lemma calculate_array_factor_first (f st : R) (c : array_info)
    (rest : list array_info) (w kk : R) (angles : list npfloat) :
  calculate_array_factor angles (mk_simulator f st (c :: rest) w kk)
  = (Ok (map (spec_array_factor kk st c) angles),
     mk_simulator f st (c :: rest) w kk).
Proof.
  unfold calculate_array_factor, bind, get, lift, ret.
  cbn [arrays_info index0 k steering_angle].
  rewrite array_factor_loop, map_map.
  do 2 f_equal. apply map_ext. intros theta.
  unfold spec_array_factor. apply cabs2_squared_magnitude;
    apply csum_cexp_no_inf.
Qed.

(** C3: with a non-empty configuration list the array factor at each
    angle theta is |sum over the elements (x, y) of the first array of
    exp(i (k (x sin theta + y cos theta) + phi))|^2 with
    phi = -k (x sin(steering_rad) + y cos(steering_rad)), no sign flip and
    no normalisation; the configurations after the first do not matter. *)
Theorem array_factor_uses_first_array (f st : R) (c : array_info)
    (rest : list array_info) (w kk : R) (angles : list npfloat) :
  calculate_array_factor angles (mk_simulator f st (c :: rest) w kk)
  = (Ok (map (spec_array_factor kk st c) angles),
     mk_simulator f st (c :: rest) w kk)
  /\ forall rest',
       fst (calculate_array_factor angles
              (mk_simulator f st (c :: rest') w kk))
       = fst (calculate_array_factor angles
                (mk_simulator f st (c :: rest) w kk)).
Proof.
  split.
  - apply calculate_array_factor_first.
  - intros rest'. rewrite !calculate_array_factor_first. reflexivity.
Qed.

(** ** Finite values *)

Lemma positions_finite (info : array_info) :
  finite_geometry info ->
  Forall fin_position
    (calculate_element_positions
       (num_elements info) (spacing info) (curvature info)).
Proof.
  intros Hg. apply Forall_forall. intros e He.
  destruct (Req_dec_T (curvature info) 0) as [Hc | Hc].
  - rewrite Hc, positions_linear in He.
    apply in_map_iff in He. destruct He as [i [<- _]]. split; exact I.
  - destruct Hg as [Hn | Hc0]; [| contradiction].
    rewrite positions_curved in He by assumption.
    apply in_map_iff in He. destruct He as [i [<- _]]. split; exact I.
Qed.

Lemma elements_finite (infos : list array_info) :
  Forall finite_geometry infos ->
  Forall (fun se => fin_position (snd se)) (elements infos).
Proof.
  intros H. unfold elements. apply Forall_flat_map.
  eapply Forall_impl; [| exact H]. intros info Hg.
  apply Forall_map. exact (positions_finite info Hg).
Qed.

Lemma distance_fin (a b : R) (e : position) :
  fin_position e -> is_fin (distance (Fin a) (Fin b) e).
Proof.
  destruct e as [[ex | |] [ey | |]]; intros [H1 H2]; simpl in H1, H2;
    try contradiction.
  unfold distance, fsub, fsq. cbn [fst snd fneg fadd fmul fsqrt].
  rewrite Rneg_false by apply sum_sq_nonneg. exact I.
Qed.

Lemma steering_phase_fin (kk st sg : R) (e : position) :
  fin_position e -> is_fin (steering_phase kk st sg e).
Proof.
  destruct e as [[ex | |] [ey | |]]; intros [H1 H2]; simpl in H1, H2;
    try contradiction.
  exact I.
Qed.

Lemma fold_cadd_fin (l : list npcomplex) :
  Forall fin_position l ->
  forall z0, fin_position z0 -> fin_position (fold_left cadd l z0).
Proof.
  induction l as [| w l IH]; intros Hl z0 Hz0; simpl.
  - exact Hz0.
  - inversion Hl as [| ? ? Hw Hl']; subst. apply IH; [exact Hl' |].
    destruct w as [[wr | |] [wi | |]]; destruct Hw as [Hw1 Hw2];
      simpl in Hw1, Hw2; try contradiction.
    destruct z0 as [[zr | |] [zi | |]]; destruct Hz0 as [Hz1 Hz2];
      simpl in Hz1, Hz2; try contradiction.
    split; exact I.
Qed.

Lemma spec_field_fin (self : simulator) (a b : R) :
  Forall finite_geometry (arrays_info self) ->
  fin_position (spec_field self (Fin a) (Fin b)).
Proof.
  intros Hg. unfold spec_field, csum.
  apply fold_cadd_fin; [| split; exact I].
  apply Forall_map.
  eapply Forall_impl; [| exact (elements_finite _ Hg)].
  intros [sg e] He. cbn [fst snd] in *.
  pose proof (distance_fin a b e He) as Hd.
  pose proof (steering_phase_fin (k self) (steering_angle self) sg e He) as Hp.
  destruct (distance (Fin a) (Fin b) e); try contradiction.
  destruct (steering_phase (k self) (steering_angle self) sg e);
    try contradiction.
  split; exact I.
Qed.

Lemma intensity_fin (self : simulator) (a b : R) :
  Forall finite_geometry (arrays_info self) ->
  squared_magnitude (spec_field self (Fin a) (Fin b))
  = Fin (intensity_R self (Fin a) (Fin b))
  /\ 0 <= intensity_R self (Fin a) (Fin b).
Proof.
  intros Hg. unfold intensity_R.
  pose proof (spec_field_fin self a b Hg) as [H1 H2].
  destruct (spec_field self (Fin a) (Fin b)) as [[re | |] [im | |]];
    simpl in H1, H2; try contradiction.
  unfold squared_magnitude, fsq. cbn [fst snd fmul fadd to_R].
  split; [reflexivity | apply sum_sq_nonneg].
Qed.

(** ** Maximum and normalisation *)

Lemma fold_fmax_fin (vs : list R) :
  forall v, fold_left fmax (map Fin vs) (Fin v) = Fin (fold_left Rmax vs v).
Proof. induction vs as [| w vs IH]; intros v; simpl; [| rewrite IH]; reflexivity. Qed.

Lemma fold_Rmax_ge (vs : list R) :
  forall v, v <= fold_left Rmax vs v
            /\ forall p, In p vs -> p <= fold_left Rmax vs v.
Proof.
  induction vs as [| w vs IH]; intros v; simpl.
  - split; [lra | tauto].
  - destruct (IH (Rmax v w)) as [H1 H2].
    pose proof (Rmax_l v w). pose proof (Rmax_r v w).
    split; [lra |]. intros p [<- | Hp]; [lra | auto].
Qed.

Lemma fold_Rmax_In (vs : list R) :
  forall v, In (fold_left Rmax vs v) (v :: vs).
Proof.
  induction vs as [| w vs IH]; intros v; simpl.
  - left. reflexivity.
  - destruct (IH (Rmax v w)) as [H | H].
    + unfold Rmax in H at 1. destruct (Rle_dec v w); auto.
    + right. right. exact H.
Qed.

Lemma Rmax_list_ge (l : list R) (p : R) : In p l -> p <= Rmax_list l.
Proof.
  destruct l as [| v vs]; simpl; [tauto |].
  destruct (fold_Rmax_ge vs v) as [H1 H2].
  intros [<- | Hp]; auto.
Qed.

Lemma Rmax_list_In (l : list R) : l <> [] -> In (Rmax_list l) l.
Proof.
  destruct l as [| v vs]; [congruence |]. intros _. apply fold_Rmax_In.
Qed.

Lemma np_max_fin (P : arr2 R) :
  concat P <> [] ->
  np_max (arr_map Fin P) = Ok (Fin (Rmax_list (concat P))).
Proof.
  intros Hne. unfold np_max, arr_map. rewrite <- concat_map.
  destruct (concat P) as [| v vs]; [congruence |].
  cbn [map Rmax_list]. rewrite fold_fmax_fin. reflexivity.
Qed.

Lemma grid_ext_in {A : Type} (x y : list npfloat)
    (h g : npfloat -> npfloat -> A) :
  (forall a b, In a x -> In b y -> h a b = g a b) ->
  grid x y h = grid x y g.
Proof.
  intros H. unfold grid. apply map_ext_in. intros b Hb.
  apply map_ext_in. intros a Ha. apply H; assumption.
Qed.

Lemma grid_In {A : Type} (x y : list npfloat)
    (h : npfloat -> npfloat -> A) (v : A) :
  In v (concat (grid x y h)) <-> exists a b, In a x /\ In b y /\ v = h a b.
Proof.
  unfold grid. rewrite in_concat. split.
  - intros [row [Hrow Hv]]. apply in_map_iff in Hrow.
    destruct Hrow as [b [<- Hb]]. apply in_map_iff in Hv.
    destruct Hv as [a [<- Ha]]. exists a, b. auto.
  - intros [a [b [Ha [Hb ->]]]].
    exists (map (fun xi => h xi b) x). split.
    + apply in_map_iff. exists b. auto.
    + apply in_map_iff. exists a. auto.
Qed.

Lemma linspace_samples (a b : R) (n : nat) :
  linspace a b n = map Fin (samples a b n).
Proof. unfold linspace, samples. rewrite map_map. reflexivity. Qed.

Lemma linspace_In (a b : R) (n : nat) (v : npfloat) :
  In v (linspace a b n) -> exists r, v = Fin r.
Proof.
  rewrite linspace_samples. intros H. apply in_map_iff in H.
  destruct H as [r [<- _]]. exists r. reflexivity.
Qed.

Lemma linspace_nonempty (a b : R) (n : nat) :
  exists v, In v (linspace a b (S n)).
Proof. unfold linspace. cbn [seq map]. eexists. left. reflexivity. Qed.

Lemma normalized_bounds (p m : R) :
  0 <= p <= m ->
  0 <= p / (m + 1e-10) < 1
  /\ (p / (m + 1e-10) = 0 <-> p = 0)
  /\ (p / (m + 1e-10) = m / (m + 1e-10) <-> p = m).
Proof.
  intros [H0 Hm].
  assert (Hd : 0 < m + 1e-10) by lra.
  assert (Hi : 0 < / (m + 1e-10)) by (apply Rinv_0_lt_compat; exact Hd).
  assert (Hone : (m + 1e-10) * / (m + 1e-10) = 1) by (apply Rinv_r; lra).
  unfold Rdiv. repeat split.
  - nra.
  - nra.
  - intros H. nra.
  - intros ->. lra.
  - intros H. nra.
  - intros ->. reflexivity.
Qed.

Lemma concat_arr_map_In {A B : Type} (f : A -> B) (P : arr2 A) (v : B) :
  In v (concat (arr_map f P)) -> exists p, In p (concat P) /\ v = f p.
Proof.
  unfold arr_map. rewrite <- concat_map. intros H.
  apply in_map_iff in H. destruct H as [p [<- Hp]]. exists p. auto.
Qed.

(** With finite geometry the method returns the real intensities divided
    by their maximum plus 1e-10. *)
Lemma simulate_finite (self : simulator) (x_range y_range : R * R) :
  Forall finite_geometry (arrays_info self) ->
  let x := linspace (fst x_range) (snd x_range) 200 in
  let y := linspace (fst y_range) (snd y_range) 200 in
  let P := grid x y (intensity_R self) in
  let Mx := Rmax_list (concat P) in
  simulate_multiple_arrays x_range y_range self
  = (Ok (x, y, arr_map (fun p => Fin (p / (Mx + 1e-10))) P), self)
  /\ In Mx (concat P)
  /\ (forall p, In p (concat P) -> 0 <= p <= Mx).
Proof.
  intros Hg x y P Mx.
  assert (Hint : grid x y (fun gx gy =>
                             squared_magnitude (spec_field self gx gy))
                 = arr_map Fin P).
  { unfold P. rewrite arr_map_grid. apply grid_ext_in. intros a b Ha Hb.
    apply linspace_In in Ha. apply linspace_In in Hb.
    destruct Ha as [ra ->]. destruct Hb as [rb ->].
    apply intensity_fin. exact Hg. }
  assert (Hne : concat P <> []).
  { destruct (linspace_nonempty (fst x_range) (snd x_range) 199) as [a Ha].
    destruct (linspace_nonempty (fst y_range) (snd y_range) 199) as [b Hb].
    assert (Hin : In (intensity_R self a b) (concat P)).
    { apply grid_In. exists a, b. auto. }
    intros Heq. rewrite Heq in Hin. exact Hin. }
  assert (Hpos : forall p, In p (concat P) -> 0 <= p).
  { intros p Hp. apply grid_In in Hp.
    destruct Hp as [a [b [Ha [Hb ->]]]].
    apply linspace_In in Ha. apply linspace_In in Hb.
    destruct Ha as [ra ->]. destruct Hb as [rb ->].
    apply intensity_fin. exact Hg. }
  pose proof (Rmax_list_In _ Hne) as HM. fold Mx in HM.
  split; [| split; [exact HM |]].
  - rewrite simulate_multiple_arrays_eq. fold x y. rewrite Hint.
    rewrite (np_max_fin P Hne). fold Mx.
    do 3 f_equal. unfold arr_map. rewrite map_map. apply map_ext.
    intros row. rewrite map_map. apply map_ext. intros p.
    cbn [fadd]. apply fdiv_fin. pose proof (Hpos Mx HM). lra.
  - intros p Hp. split; [apply Hpos; exact Hp |].
    apply Rmax_list_ge. exact Hp.
Qed.

Lemma top_value_bounds (m : R) :
  0 <= m ->
  m / (m + 1e-10) <= 1 /\ (1 <= m -> 1 - 1e-10 <= m / (m + 1e-10)).
Proof.
  intros Hm.
  assert (Hd : 0 < m + 1e-10) by lra.
  assert (Hi : 0 < / (m + 1e-10)) by (apply Rinv_0_lt_compat; exact Hd).
  assert (Hone : (m + 1e-10) * / (m + 1e-10) = 1) by (apply Rinv_r; lra).
  unfold Rdiv. split.
  - nra.
  - intros H1. nra.
Qed.

(** C4, as the code has it: when no array is a single element on a curved
    arc, every returned intensity is [p / (M + 1e-10)] for the squared
    field magnitude [p] at that point and the maximum [M] of the map, so
    it lies in [0, 1]; the largest value [M / (M + 1e-10)] is taken
    exactly at the points of maximal field magnitude (there is at least
    one) and is within 1e-10 of 1 when [M >= 1]; when the field vanishes
    on the whole grid every value is 0; and the value is 0 exactly where
    the field is zero. *)
Theorem normalized_intensity_range (self : simulator) (x_range y_range : R * R) :
  Forall finite_geometry (arrays_info self) ->
  let x := linspace (fst x_range) (snd x_range) 200 in
  let y := linspace (fst y_range) (snd y_range) 200 in
  let P := grid x y (intensity_R self) in
  let Mx := Rmax_list (concat P) in
  simulate_multiple_arrays x_range y_range self
  = (Ok (x, y, arr_map (fun p => Fin (p / (Mx + 1e-10))) P), self)
  /\ In Mx (concat P)
  /\ (forall p, In p (concat P) ->
        0 <= p <= Mx
        /\ 0 <= p / (Mx + 1e-10) <= Mx / (Mx + 1e-10)
        /\ (p / (Mx + 1e-10) = 0 <-> p = 0)
        /\ (p / (Mx + 1e-10) = Mx / (Mx + 1e-10) <-> p = Mx))
  /\ Mx / (Mx + 1e-10) <= 1
  /\ (1 <= Mx -> 1 - 1e-10 <= Mx / (Mx + 1e-10))
  /\ (Mx = 0 -> forall p, In p (concat P) -> p / (Mx + 1e-10) = 0).
Proof.
  intros Hg x y P Mx.
  destruct (simulate_finite self x_range y_range Hg) as [Hsim [HM Hb]].
  assert (HM0 : 0 <= Mx) by (apply (Hb Mx HM)).
  split; [exact Hsim |]. split; [exact HM |].
  assert (Hb' : forall p, In p (concat P) -> 0 <= p <= Mx) by exact Hb.
  clear Hsim HM Hb. rename Hb' into Hb. clearbody Mx. clearbody P.
  split; [| split; [| split]].
  - intros p Hp. pose proof (Hb p Hp) as Hpb.
    destruct (normalized_bounds p Mx Hpb) as [[H0 _] [Hz Heq]].
    split; [exact Hpb |]. split; [| split; assumption].
    split; [exact H0 |].
    assert (Hi : 0 < / (Mx + 1e-10)) by (apply Rinv_0_lt_compat; lra).
    unfold Rdiv. apply Rmult_le_compat_r; lra.
  - apply top_value_bounds. exact HM0.
  - apply top_value_bounds. exact HM0.
  - intros H0 p Hp. pose proof (Hb p Hp) as Hpb.
    apply (normalized_bounds p Mx Hpb). lra.
Qed.

Lemma normalized_intensity_range_witness :
  let self :=
    mk_simulator 2.4e9 0 [mk_array_info 8 0.0625 0]
                 (3e8 / 2.4e9) (2 * PI / (3e8 / 2.4e9)) in
  let P := grid (linspace (-10) 10 200) (linspace 0 10 200)
                (intensity_R self) in
  Forall finite_geometry (arrays_info self)
  /\ In (Rmax_list (concat P)) (concat P).
Proof.
  intros self P.
  assert (Hg : Forall finite_geometry (arrays_info self)).
  { repeat constructor. simpl. lia. }
  split; [exact Hg |].
  exact (proj1 (proj2 (normalized_intensity_range self (-10, 10) (0, 10) Hg))).
Defined.

(** *** A map on which no point comes near 1

    Two elements half a wavelength apart, steering angle 0, sampled along
    the array axis beyond the array: the two path lengths differ by the
    spacing, the phases by pi, and the field cancels at every sample. *)

Lemma distance_on_axis (g x : R) :
  x <= g -> distance (Fin g) (Fin 0) (Fin x, Fin 0) = Fin (g - x).
Proof.
  intros H. unfold distance, fsub, fsq. cbn [fst snd fneg fadd fmul fsqrt].
  rewrite Rneg_false by apply sum_sq_nonneg. f_equal.
  replace ((g + - x) * (g + - x) + (0 + - 0) * (0 + - 0))
    with ((g - x) * (g - x)) by ring.
  apply sqrt_square. lra.
Qed.

Lemma steering_phase_broadside (kk sg x : R) :
  steering_phase kk 0 sg (Fin x, Fin 0) = Fin 0.
Proof.
  unfold steering_phase. cbn [fst snd fmul fadd].
  replace (sg * radians 0) with 0 by (unfold radians; ring).
  rewrite sin_0. f_equal. ring.
Qed.

Lemma axis_null_intensity (f w kk s g : R) :
  kk * s = PI -> 0 <= s -> s / 2 <= g ->
  intensity_R (mk_simulator f 0 [mk_array_info 2 s 0] w kk) (Fin g) (Fin 0)
  = 0.
Proof.
  intros Hk Hs Hg. unfold intensity_R, spec_field, elements.
  cbn [arrays_info flat_map num_elements spacing curvature k steering_angle].
  rewrite positions_linear. change (range 2) with [0%Z; 1%Z].
  cbn [map app fst snd]. unfold csum. cbn [fold_left].
  assert (H0 : linear_x 2 s 0 = - (s / 2)) by (unfold linear_x; lra).
  assert (H1 : linear_x 2 s 1 = s / 2) by (unfold linear_x; lra).
  rewrite H0, H1.
  rewrite !distance_on_axis by lra.
  rewrite !steering_phase_broadside.
  unfold cadd, czero, squared_magnitude, fsq.
  cbn [fst snd fmul fadd fcos fsin cexp_i to_R].
  replace (kk * (g - - (s / 2)) + 0) with (kk * (g - s / 2) + 0 + PI)
    by (rewrite <- Hk; field).
  rewrite neg_cos, neg_sin. ring.
Qed.

Lemma linspace_sample (a b : R) (n : nat) (v : npfloat) :
  In v (linspace a b n) ->
  exists i : nat, v = Fin (INR i * ((b - a) / INR (n - 1)) + a).
Proof.
  unfold linspace. intros H. apply in_map_iff in H.
  destruct H as [i [<- _]]. exists i. reflexivity.
Qed.

(** C4 as stated fails: for two elements half a wavelength apart, sampled
    along the axis of the array, every value of the returned map is 0, so
    no grid point reaches 1.0, neither exactly nor approximately. *)
Lemma axis_cut_is_all_zero :
  let self :=
    mk_simulator 2.4e9 0 [mk_array_info 2 0.0625 0]
                 (3e8 / 2.4e9) (2 * PI / (3e8 / 2.4e9)) in
  exists x y intensity,
    simulate_multiple_arrays (1, 10) (0, 0) self = (Ok (x, y, intensity), self)
    /\ forall v, In v (concat intensity) -> v = Fin 0.
Proof.
  intros self.
  assert (Hg : Forall finite_geometry (arrays_info self)).
  { repeat constructor. simpl. lia. }
  assert (Hk : 2 * PI / (3e8 / 2.4e9) * 0.0625 = PI).
  { replace (3e8 / 2.4e9) with (1 / 8) by lra. lra. }
  assert (Hzero : forall p,
             In p (concat (grid (linspace 1 10 200) (linspace 0 0 200)
                             (intensity_R self))) -> p = 0).
  { intros p Hp. apply grid_In in Hp. destruct Hp as [a [b [Ha [Hb ->]]]].
    apply linspace_sample in Ha. apply linspace_sample in Hb.
    destruct Ha as [i ->]. destruct Hb as [j ->].
    replace (INR j * ((0 - 0) / INR (200 - 1)) + 0) with 0
      by (unfold Rdiv; ring).
    apply axis_null_intensity; [exact Hk | lra |].
    assert (Hstep : 0 <= (10 - 1) / INR (200 - 1)).
    { unfold Rdiv. apply Rmult_le_pos; [lra |].
      left. apply Rinv_0_lt_compat. apply lt_0_INR. lia. }
    pose proof (pos_INR i) as Hi.
    pose proof (Rmult_le_pos _ _ Hi Hstep). lra. }
  destruct (simulate_finite self (1, 10) (0, 0) Hg) as [Hsim [HM _]].
  cbn [fst snd] in Hsim, HM.
  eexists _, _, _. split; [exact Hsim |].
  intros v Hv. apply concat_arr_map_In in Hv.
  destruct Hv as [p [Hp ->]].
  rewrite (Hzero p Hp). f_equal. unfold Rdiv. ring.
Qed.

(** ** An empty configuration list *)

Lemma simulate_empty (f st w kk : R) (x_range y_range : R * R) :
  let self := mk_simulator f st [] w kk in
  let x := linspace (fst x_range) (snd x_range) 200 in
  let y := linspace (fst y_range) (snd y_range) 200 in
  simulate_multiple_arrays x_range y_range self
  = (Ok (x, y, grid x y (fun _ _ => Fin 0)), self).
Proof.
  intros self x y.
  assert (Hg : Forall finite_geometry (arrays_info self)) by constructor.
  destruct (simulate_finite self x_range y_range Hg) as [Hsim _].
  rewrite Hsim. fold x y. do 3 f_equal.
  rewrite arr_map_grid. apply grid_ext. intros a b. f_equal.
  unfold intensity_R, spec_field, elements, csum, self.
  cbn [arrays_info flat_map map fold_left squared_magnitude czero fst snd
       fsq fmul fadd to_R].
  unfold Rdiv. ring.
Qed.

Lemma array_factor_empty (f st w kk : R) (angles : list npfloat) :
  calculate_array_factor angles (mk_simulator f st [] w kk)
  = (Raise IndexError, mk_simulator f st [] w kk).
Proof. reflexivity. Qed.

(** C5, as the code has it: with an empty configuration list
    [simulate_multiple_arrays] does not fail, it returns the sample axes
    and an all-zero intensity map; [calculate_array_factor] fails on
    indexing the first configuration ([IndexError]); neither changes the
    simulator. *)
Theorem empty_configuration_behaviour (f st w kk : R)
    (x_range y_range : R * R) (angles : list npfloat) :
  let self := mk_simulator f st [] w kk in
  simulate_multiple_arrays x_range y_range self
  = (Ok (linspace (fst x_range) (snd x_range) 200,
         linspace (fst y_range) (snd y_range) 200,
         grid (linspace (fst x_range) (snd x_range) 200)
              (linspace (fst y_range) (snd y_range) 200)
              (fun _ _ => Fin 0)), self)
  /\ calculate_array_factor angles self = (Raise IndexError, self).
Proof.
  intros self. split.
  - apply simulate_empty.
  - apply array_factor_empty.
Qed.

(** C5 as stated fails: the grid simulation of an empty configuration list
    returns a value instead of failing. *)
Lemma empty_configuration_simulates :
  exists r,
    fst (simulate_multiple_arrays (-10, 10) (0, 10)
           (mk_simulator 2.4e9 0 [] (3e8 / 2.4e9) (2 * PI / (3e8 / 2.4e9))))
    = Ok r.
Proof.
  eexists.
  rewrite (simulate_empty 2.4e9 0 (3e8 / 2.4e9) (2 * PI / (3e8 / 2.4e9))
             (-10, 10) (0, 10)).
  reflexivity.
Qed.

(** ** Setters *)

Lemma pydiv_ok (a b : R) : b <> 0 -> pydiv a b = Ok (a / b).
Proof.
  intros H. unfold pydiv. destruct (Req_dec_T b 0); [contradiction | reflexivity].
Qed.

Lemma pydiv_zero (a : R) : pydiv a 0 = Raise ZeroDivisionError.
Proof.
  unfold pydiv. destruct (Req_dec_T 0 0); [reflexivity | contradiction].
Qed.

(** The constructor establishes the relation between the three fields. *)
Lemma init_nonzero (f st : R) (infos : list array_info) :
  f <> 0 ->
  init f st infos
  = Ok (mk_simulator f st infos (3e8 / f) (2 * PI / (3e8 / f))).
Proof.
  intros Hf.
  assert (Hw : 3e8 / f <> 0).
  { unfold Rdiv. apply Rmult_integral_contrapositive_currified; [lra |].
    apply Rinv_neq_0_compat. exact Hf. }
  unfold init. rewrite (pydiv_ok _ _ Hf), (pydiv_ok _ _ Hw). reflexivity.
Qed.

Lemma update_operating_frequency_nonzero (hz : R) (self : simulator) :
  hz <> 0 ->
  update_operating_frequency hz self
  = (Ok tt,
     mk_simulator hz (steering_angle self) (arrays_info self)
                  (3e8 / hz) (2 * PI / (3e8 / hz))).
Proof.
  intros Hhz.
  assert (Hw : 3e8 / hz <> 0).
  { unfold Rdiv. apply Rmult_integral_contrapositive_currified; [lra |].
    apply Rinv_neq_0_compat. exact Hhz. }
  unfold update_operating_frequency, bind, set_frequency, get, lift,
    set_wavelength, set_k.
  cbn [frequency steering_angle arrays_info wavelength k].
  rewrite (pydiv_ok _ _ Hhz).
  cbn [frequency steering_angle arrays_info wavelength k].
  rewrite (pydiv_ok _ _ Hw). reflexivity.
Qed.

(** A zero frequency: the division raises after [self.frequency] was
    already overwritten. *)
Lemma update_operating_frequency_zero (self : simulator) :
  update_operating_frequency 0 self
  = (Raise ZeroDivisionError,
     mk_simulator 0 (steering_angle self) (arrays_info self)
                  (wavelength self) (k self)).
Proof.
  unfold update_operating_frequency, bind, set_frequency, get, lift.
  cbn [frequency steering_angle arrays_info wavelength k].
  rewrite pydiv_zero. reflexivity.
Qed.

(** C6, as the code has it: [update_operating_frequency] does not validate
    its argument; for every non-zero [hz], negative ones included, it
    succeeds and sets frequency, wavelength and wave number together, so
    that wavelength = 3e8 / frequency and wave number = 2 pi / wavelength
    hold afterwards, and steering angle and configurations are kept. *)
Theorem update_operating_frequency_sets_all (hz : R) (self : simulator) :
  hz <> 0 ->
  exists self',
    update_operating_frequency hz self = (Ok tt, self')
    /\ frequency self' = hz
    /\ wavelength self' = 3e8 / frequency self'
    /\ k self' = 2 * PI / wavelength self'
    /\ steering_angle self' = steering_angle self
    /\ arrays_info self' = arrays_info self.
Proof.
  intros Hhz. eexists. split.
  - apply update_operating_frequency_nonzero. exact Hhz.
  - cbn [frequency wavelength k steering_angle arrays_info].
    repeat split; reflexivity.
Qed.

Lemma update_operating_frequency_sets_all_witness :
  2.4e9 <> 0 /\
  exists self',
    update_operating_frequency 2.4e9
      (mk_simulator 1e9 0 [] (3e8 / 1e9) (2 * PI / (3e8 / 1e9)))
    = (Ok tt, self')
    /\ frequency self' = 2.4e9.
Proof.
  assert (H : 2.4e9 <> 0) by lra.
  split; [exact H |].
  destruct (update_operating_frequency_sets_all 2.4e9
              (mk_simulator 1e9 0 [] (3e8 / 1e9) (2 * PI / (3e8 / 1e9))) H)
    as [self' [H1 [H2 _]]].
  exists self'. split; assumption.
Defined.

(** C6 as stated fails: a negative frequency is accepted and all three
    fields change. *)
Lemma negative_frequency_accepted :
  update_operating_frequency (-5)
    (mk_simulator 1e9 0 [] (3e8 / 1e9) (2 * PI / (3e8 / 1e9)))
  = (Ok tt, mk_simulator (-5) 0 [] (3e8 / -5) (2 * PI / (3e8 / -5))).
Proof. apply update_operating_frequency_nonzero. lra. Qed.

(** ** Frame properties *)

(** C9: [simulate_multiple_arrays] and [calculate_array_factor] leave every
    field of the simulator as it was, whether they return or raise, and
    [update_steering_angle] changes the steering angle only. *)
Theorem simulation_is_read_only (self : simulator)
    (x_range y_range : R * R) (angles : list npfloat) (a : R) :
  snd (simulate_multiple_arrays x_range y_range self) = self
  /\ snd (calculate_array_factor angles self) = self
  /\ update_steering_angle a self
     = (Ok tt, mk_simulator (frequency self) a (arrays_info self)
                            (wavelength self) (k self)).
Proof.
  split; [| split].
  - rewrite simulate_multiple_arrays_eq. reflexivity.
  - unfold calculate_array_factor, bind, get, lift, ret.
    destruct (index0 (arrays_info self)); reflexivity.
  - reflexivity.
Qed.

(** ** The array factor of a straight array *)

Lemma fold_cadd_fin_pairs {E : Type} (c s : E -> R) (l : list E) :
  forall a b,
    fold_left cadd (map (fun i => (Fin (c i), Fin (s i))) l) (Fin a, Fin b)
    = (Fin (fold_left (fun acc i => acc + c i) l a),
       Fin (fold_left (fun acc i => acc + s i) l b)).
Proof.
  induction l as [| i l IH]; intros a b; simpl.
  - reflexivity.
  - unfold cadd at 2. cbn [fst snd fadd]. apply IH.
Qed.

Lemma linear_array_factor (kk st : R) (c : array_info) (t : R) :
  curvature c = 0 ->
  spec_array_factor kk st c (Fin t)
  = Fin (linear_af kk st (num_elements c) (spacing c) t).
Proof.
  intros Hc. unfold spec_array_factor. rewrite Hc, positions_linear.
  rewrite map_map. unfold csum, czero.
  rewrite (fold_cadd_fin_pairs
             (fun i => cos (linear_phase kk st (num_elements c) (spacing c) t i))
             (fun i => sin (linear_phase kk st (num_elements c) (spacing c) t i))).
  reflexivity.
Qed.

Lemma sq_le (x m : R) : 0 <= m -> x * x <= m * m -> x <= m.
Proof. intros Hm H. nra. Qed.

Lemma unit_step_bound (a b m p : R) :
  0 <= m -> a * a + b * b <= m * m ->
  (a + cos p) * (a + cos p) + (b + sin p) * (b + sin p)
  <= (m + 1) * (m + 1).
Proof.
  intros Hm H.
  pose proof (sin2_cos2 p) as Hp. unfold Rsqr in Hp.
  assert (Hx : a * cos p + b * sin p <= m).
  { apply sq_le; [exact Hm |].
    pose proof (Rle_0_sqr (a * sin p - b * cos p)) as Hs. unfold Rsqr in Hs.
    assert (Hid : (a * cos p + b * sin p) * (a * cos p + b * sin p)
                  + (a * sin p - b * cos p) * (a * sin p - b * cos p)
                  = (a * a + b * b) * (sin p * sin p + cos p * cos p))
      by ring.
    rewrite Hp, Rmult_1_r in Hid. lra. }
  nra.
Qed.

Lemma sum_unit_bound {E : Type} (ph : E -> R) (l : list E) :
  forall a b m,
    0 <= m -> a * a + b * b <= m * m ->
    let re := fold_left (fun acc i => acc + cos (ph i)) l a in
    let im := fold_left (fun acc i => acc + sin (ph i)) l b in
    re * re + im * im <= (m + INR (length l)) * (m + INR (length l)).
Proof.
  induction l as [| i l IH]; intros a b m Hm H.
  - simpl. rewrite Rplus_0_r. exact H.
  - cbn [fold_left]. rewrite length_cons, S_INR.
    replace (m + (INR (length l) + 1)) with ((m + 1) + INR (length l)) by ring.
    apply IH; [lra |]. apply unit_step_bound; assumption.
Qed.

Lemma sum_zero_phase {E : Type} (ph : E -> R) (l : list E) :
  (forall i, ph i = 0) ->
  forall a b,
    fold_left (fun acc i => acc + cos (ph i)) l a = a + INR (length l)
    /\ fold_left (fun acc i => acc + sin (ph i)) l b = b.
Proof.
  intros H0. induction l as [| i l IH]; intros a b.
  - simpl. split; [ring | reflexivity].
  - cbn [fold_left]. rewrite length_cons, S_INR, H0, cos_0, sin_0.
    destruct (IH (a + 1) (b + 0)) as [H1 H2]. rewrite H1, H2.
    split; ring.
Qed.

Lemma range_length_IZR (n : Z) :
  (0 <= n)%Z -> INR (length (range n)) = IZR n.
Proof.
  intros Hn. rewrite range_length, INR_IZR_INZ, Z2Nat.id by exact Hn.
  reflexivity.
Qed.

Lemma linear_phase_at_steering (kk st : R) (n : Z) (s : R) (i : Z) :
  linear_phase kk st n s st i = 0.
Proof. unfold linear_phase. ring. Qed.

Lemma linear_af_at_steering (kk st : R) (n : Z) (s : R) :
  (0 <= n)%Z -> linear_af kk st n s st = IZR n * IZR n.
Proof.
  intros Hn. unfold linear_af.
  destruct (sum_zero_phase (linear_phase kk st n s st) (range n)
              (linear_phase_at_steering kk st n s) 0 0) as [H1 H2].
  rewrite H1, H2, (range_length_IZR n Hn). ring.
Qed.

Lemma linear_af_bound (kk st : R) (n : Z) (s t : R) :
  (0 <= n)%Z -> linear_af kk st n s t <= IZR n * IZR n.
Proof.
  intros Hn. unfold linear_af.
  pose proof (sum_unit_bound (linear_phase kk st n s t) (range n) 0 0 0
                (Rle_refl 0)) as H.
  cbv zeta in H. rewrite Rplus_0_l, (range_length_IZR n Hn) in H.
  apply H. lra.
Qed.

(** C10: for a straight first array of [n >= 1] elements the array factor
    is a real-valued profile that equals n^2 at the steering angle and is
    at most n^2 at every other angle. *)
Theorem steering_angle_is_global_maximum (f st : R) (c : array_info)
    (rest : list array_info) (w kk : R) :
  curvature c = 0 -> (1 <= num_elements c)%Z -> 0 < spacing c ->
  let self := mk_simulator f st (c :: rest) w kk in
  let n := IZR (num_elements c) in
  let af := linear_af kk st (num_elements c) (spacing c) in
  (forall angles : list R,
     calculate_array_factor (map Fin angles) self
     = (Ok (map (fun t => Fin (af t)) angles), self))
  /\ calculate_array_factor [Fin st] self = (Ok [Fin (n * n)], self)
  /\ af st = n * n
  /\ (forall t, af t <= n * n).
Proof.
  intros Hc Hn Hs self n af.
  assert (Hall : forall angles : list R,
             calculate_array_factor (map Fin angles) self
             = (Ok (map (fun t => Fin (af t)) angles), self)).
  { intros angles. unfold self. rewrite calculate_array_factor_first.
    rewrite map_map. do 2 f_equal. apply map_ext. intros t.
    apply linear_array_factor. exact Hc. }
  assert (Hst : af st = n * n).
  { apply linear_af_at_steering. lia. }
  split; [exact Hall |]. split; [| split; [exact Hst |]].
  - rewrite <- Hst. exact (Hall [st]).
  - intros t. apply linear_af_bound. lia.
Qed.

Lemma steering_angle_is_global_maximum_witness :
  let c := mk_array_info 8 0.0625 0 in
  let self :=
    mk_simulator 2.4e9 0 [c] (3e8 / 2.4e9) (2 * PI / (3e8 / 2.4e9)) in
  curvature c = 0 /\ (1 <= num_elements c)%Z /\ 0 < spacing c
  /\ calculate_array_factor [Fin 0] self = (Ok [Fin (8 * 8)], self).
Proof.
  intros c self.
  assert (H1 : curvature c = 0) by reflexivity.
  assert (H2 : (1 <= num_elements c)%Z) by (simpl; lia).
  assert (H3 : 0 < spacing c) by (simpl; lra).
  repeat split; try assumption.
  exact (proj1 (proj2 (steering_angle_is_global_maximum
                         2.4e9 0 c [] (3e8 / 2.4e9)
                         (2 * PI / (3e8 / 2.4e9)) H1 H2 H3))).
Defined.

(** ** A single element *)

Lemma single_linear_af (kk st s t : R) : linear_af kk st 1 s t = 1.
Proof.
  unfold linear_af. change (range 1) with [0%Z]. cbn [fold_left].
  assert (Hp : linear_phase kk st 1 s t 0 = 0).
  { unfold linear_phase, linear_x. field. }
  rewrite Hp, cos_0, sin_0. ring.
Qed.

Lemma single_curved_array_factor (kk st s c : R) (theta : npfloat) :
  c <> 0 -> spec_array_factor kk st (mk_array_info 1 s c) theta = NaN.
Proof.
  intros Hc. unfold spec_array_factor.
  cbn [num_elements spacing curvature].
  rewrite (positions_single_curved s c Hc). reflexivity.
Qed.

(** C8: with a single element the profile is constant (1 at every angle)
    only for a straight array; for a curved one the [nan] position of the
    element makes the array factor [nan] at every angle. *)
Theorem single_element_array_factor :
  let angles := [Fin (-90); Fin 0; Fin 45] in
  let flat :=
    mk_simulator 2.4e9 0 [mk_array_info 1 0.0625 0]
                 (3e8 / 2.4e9) (2 * PI / (3e8 / 2.4e9)) in
  let curved :=
    mk_simulator 2.4e9 0 [mk_array_info 1 0.0625 90]
                 (3e8 / 2.4e9) (2 * PI / (3e8 / 2.4e9)) in
  calculate_array_factor angles flat = (Ok [Fin 1; Fin 1; Fin 1], flat)
  /\ calculate_array_factor angles curved = (Ok [NaN; NaN; NaN], curved).
Proof.
  intros angles flat curved. split.
  - unfold flat, angles. rewrite calculate_array_factor_first.
    cbn [map]. rewrite !linear_array_factor by reflexivity.
    cbn [num_elements spacing]. rewrite !single_linear_af. reflexivity.
  - unfold curved, angles. rewrite calculate_array_factor_first.
    cbn [map]. rewrite !single_curved_array_factor by lra. reflexivity.
Qed.

(** * Further properties of the simulator *)

(** ** Geometry *)

Lemma positions_length (n : Z) (s c : R) :
  length (calculate_element_positions n s c) = Z.to_nat n.
Proof.
  unfold calculate_element_positions.
  destruct (Req_dec_T c 0); rewrite length_map; apply range_length.
Qed.

(** X1: [calculate_element_positions] returns one position per element:
    [num_elements] of them when that is positive and none otherwise, on the
    straight and on the curved branch alike. *)
Theorem positions_count (n : Z) (s c : R) :
  length (calculate_element_positions n s c) = Z.to_nat n
  /\ ((n <= 0)%Z -> calculate_element_positions n s c = []).
Proof.
  split; [apply positions_length |].
  intros Hn. apply length_zero_iff_nil. rewrite positions_length. lia.
Qed.

Lemma range_nth_error (n i : Z) :
  (0 <= i < n)%Z -> nth_error (range n) (Z.to_nat i) = Some i.
Proof.
  intros Hi. unfold range.
  rewrite nth_error_map, (nth_error_nth' _ 0%nat).
  - rewrite seq_nth by lia. cbn [option_map]. f_equal. lia.
  - rewrite length_seq. lia.
Qed.

Lemma arc_angle_mirror (n : Z) (c : R) (i : Z) :
  (2 <= n)%Z -> arc_angle n c (n - 1 - i) = - arc_angle n c i.
Proof.
  intros Hn. unfold arc_angle. rewrite !minus_IZR.
  assert (IZR n - 1 <> 0) by (apply IZR_le in Hn; lra).
  field. assumption.
Qed.

Lemma curved_nth_error (n : Z) (s c : R) (i : Z) :
  c <> 0 -> n <> 1%Z -> (0 <= i < n)%Z ->
  nth_error (calculate_element_positions n s c) (Z.to_nat i)
  = Some (Fin (fst (arc_position n s c i)), Fin (snd (arc_position n s c i))).
Proof.
  intros Hc Hn Hi. rewrite positions_curved by assumption.
  rewrite nth_error_map, (range_nth_error n i Hi). reflexivity.
Qed.

(** X2: a curved array of at least two elements is symmetric about the
    x-axis: element [n-1-i] is the mirror image [(x, -y)] of element [i]. *)
Theorem curved_positions_mirror (n : Z) (s c : R) (i : Z) :
  (2 <= n)%Z -> c <> 0 -> (0 <= i < n)%Z ->
  exists x y,
    nth_error (calculate_element_positions n s c) (Z.to_nat i)
    = Some (Fin x, Fin y)
    /\ nth_error (calculate_element_positions n s c) (Z.to_nat (n - 1 - i))
       = Some (Fin x, Fin (- y)).
Proof.
  intros Hn Hc Hi.
  exists (fst (arc_position n s c i)), (snd (arc_position n s c i)).
  split.
  - apply curved_nth_error; (assumption || lia).
  - rewrite curved_nth_error by (assumption || lia).
    unfold arc_position. cbn [fst snd].
    rewrite (arc_angle_mirror n c i Hn), cos_neg, sin_neg.
    do 3 f_equal. ring.
Qed.

Lemma curved_positions_mirror_witness :
  (2 <= 3)%Z /\ 90 <> 0 /\ (0 <= 0 < 3)%Z /\
  exists x y,
    nth_error (calculate_element_positions 3 1 90) (Z.to_nat 0)
    = Some (Fin x, Fin y)
    /\ nth_error (calculate_element_positions 3 1 90) (Z.to_nat (3 - 1 - 0))
       = Some (Fin x, Fin (- y)).
Proof.
  assert (H1 : (2 <= 3)%Z) by lia.
  assert (H2 : 90 <> 0) by lra.
  assert (H3 : (0 <= 0 < 3)%Z) by lia.
  repeat split; try lia; try exact H2.
  exact (curved_positions_mirror 3 1 90 0 H1 H2 H3).
Defined.

(** X3: for a curved array with positive curvature and spacing and at
    least two elements, every element has a finite position with
    [x <= 0] (the arc bends away from the origin towards negative x), and
    for an odd element count [2m+1] the middle element [m] sits exactly
    at the origin. *)
Theorem curved_positions_side (n : Z) (s c : R) :
  (2 <= n)%Z -> 0 < s -> 0 < c ->
  (forall e, In e (calculate_element_positions n s c) ->
     exists x y, e = (Fin x, Fin y) /\ x <= 0)
  /\ (forall m, n = (2 * m + 1)%Z ->
        nth_error (calculate_element_positions n s c) (Z.to_nat m)
        = Some (Fin 0, Fin 0)).
Proof.
  intros Hn Hs Hc.
  assert (Hc0 : c <> 0) by lra.
  assert (Hrad : 0 < radians c).
  { unfold radians. pose proof PI_RGT_0. apply Rmult_lt_0_compat; lra. }
  assert (Hn1 : 0 < IZR n - 1) by (apply IZR_le in Hn; lra).
  assert (Hr : 0 < arc_radius n s c).
  { unfold arc_radius. apply Rdiv_lt_0_compat; [| exact Hrad].
    apply Rmult_lt_0_compat; assumption. }
  split.
  - intros e He. rewrite positions_curved in He by (assumption || lia).
    apply in_map_iff in He. destruct He as [i [<- _]].
    eexists _, _. split; [reflexivity |].
    unfold arc_position. cbn [fst].
    pose proof (COS_bound (arc_angle n c i)) as [_ Hcos]. nra.
  - intros m Hm. rewrite curved_nth_error by (assumption || lia).
    assert (Ha : arc_angle n c m = 0).
    { unfold arc_angle. subst n. rewrite plus_IZR, mult_IZR in *.
      field. lra. }
    unfold arc_position. cbn [fst snd]. rewrite Ha, cos_0, sin_0.
    do 3 f_equal; ring.
Qed.

Lemma curved_positions_side_witness :
  (2 <= 3)%Z /\ 0 < 1 /\ 0 < 90 /\
  nth_error (calculate_element_positions 3 1 90) (Z.to_nat 1)
  = Some (Fin 0, Fin 0).
Proof.
  assert (H1 : (2 <= 3)%Z) by lia.
  assert (H2 : 0 < 1) by lra.
  assert (H3 : 0 < 90) by lra.
  repeat split; try lia; try lra.
  exact (proj2 (curved_positions_side 3 1 90 H1 H2 H3) 1%Z eq_refl).
Defined.

(** ** Shape of the intensity map *)

Lemma linspace_length (a b : R) (n : nat) : length (linspace a b n) = n.
Proof. unfold linspace. rewrite length_map, length_seq. reflexivity. Qed.

Lemma linspace_first (a b : R) (n : nat) :
  nth 0 (linspace a b (S n)) NaN = Fin a.
Proof. unfold linspace. cbn [seq map nth INR]. f_equal. ring. Qed.

Lemma linspace_last (a b : R) :
  nth 199 (linspace a b 200) NaN = Fin b.
Proof.
  unfold linspace.
  rewrite (nth_indep _ NaN
             (Fin (INR 0 * ((b - a) / INR (200 - 1)) + a)))
    by (rewrite length_map, length_seq; lia).
  rewrite (map_nth (fun i : nat => Fin (INR i * ((b - a) / INR (200 - 1)) + a))).
  rewrite seq_nth by lia.
  change (200 - 1)%nat with 199%nat. change (0 + 199)%nat with 199%nat.
  assert (H : INR 199 = 199).
  { rewrite INR_IZR_INZ. reflexivity. }
  rewrite H. f_equal. field.
Qed.

Lemma grid_length {A : Type} (x y : list npfloat)
    (h : npfloat -> npfloat -> A) :
  length (grid x y h) = length y
  /\ Forall (fun row => length row = length x) (grid x y h).
Proof.
  unfold grid. split; [apply length_map |].
  apply Forall_forall. intros row Hrow. apply in_map_iff in Hrow.
  destruct Hrow as [b [<- _]]. apply length_map.
Qed.

Lemma grid_concat_head {A : Type} (a b : npfloat) (x y : list npfloat)
    (h : npfloat -> npfloat -> A) :
  exists rest, concat (grid (a :: x) (b :: y) h) = h a b :: rest.
Proof. unfold grid. cbn [map concat app]. eexists. reflexivity. Qed.

Lemma linspace_cons (a b : R) (n : nat) :
  exists v l, linspace a b (S n) = v :: l.
Proof. unfold linspace. cbn [seq map]. eexists _, _. reflexivity. Qed.

Lemma np_max_grid_ok (a b a' b' : R) (h : npfloat -> npfloat -> npfloat) :
  exists mx,
    np_max (grid (linspace a b 200) (linspace a' b' 200) h) = Ok mx.
Proof.
  destruct (linspace_cons a b 199) as [v [l Hx]].
  destruct (linspace_cons a' b' 199) as [v' [l' Hy]].
  rewrite Hx, Hy.
  destruct (grid_concat_head v v' l l' h) as [rest Hc].
  unfold np_max. rewrite Hc. eexists. reflexivity.
Qed.

(** X4: [simulate_multiple_arrays] never raises, whatever the simulator
    holds: it returns the two axes of 200 samples, running from the first
    to the second end of each range, and a map of 200 rows of 200 values. *)
Theorem simulate_shape (self : simulator) (x_range y_range : R * R) :
  exists x y intensity,
    simulate_multiple_arrays x_range y_range self
    = (Ok (x, y, intensity), self)
    /\ length x = 200%nat /\ length y = 200%nat
    /\ nth 0 x NaN = Fin (fst x_range) /\ nth 199 x NaN = Fin (snd x_range)
    /\ nth 0 y NaN = Fin (fst y_range) /\ nth 199 y NaN = Fin (snd y_range)
    /\ length intensity = 200%nat
    /\ Forall (fun row => length row = 200%nat) intensity.
Proof.
  destruct (np_max_grid_ok (fst x_range) (snd x_range)
              (fst y_range) (snd y_range)
              (fun gx gy => squared_magnitude (spec_field self gx gy)))
    as [mx Hmx].
  eexists _, _, _. split.
  { rewrite simulate_multiple_arrays_eq, Hmx. reflexivity. }
  rewrite arr_map_grid.
  pose proof (grid_length (linspace (fst x_range) (snd x_range) 200)
                (linspace (fst y_range) (snd y_range) 200)
                (fun a b =>
                   fdiv (squared_magnitude (spec_field self a b))
                        (fadd mx (Fin 1e-10)))) as [Hl Hrows].
  rewrite !linspace_length in *.
  repeat split; try assumption;
    try apply (linspace_first _ _ 199); apply linspace_last.
Qed.

(** ** Non-finite positions spread to the whole map *)

Lemma fadd_nan_r (a : npfloat) : fadd a NaN = NaN.
Proof. destruct a; reflexivity. Qed.

Lemma cadd_nan_r (z : npcomplex) : cadd z (NaN, NaN) = (NaN, NaN).
Proof. unfold cadd. cbn [fst snd]. rewrite !fadd_nan_r. reflexivity. Qed.

Lemma fold_cadd_nan (l : list npcomplex) :
  fold_left cadd l (NaN, NaN) = (NaN, NaN).
Proof. induction l as [| w l IH]; simpl; [reflexivity | exact IH]. Qed.

Lemma fold_cadd_contains_nan (l : list npcomplex) :
  In (NaN, NaN) l -> forall z, fold_left cadd l z = (NaN, NaN).
Proof.
  induction l as [| w l IH]; intros Hin z; [contradiction |].
  cbn [fold_left]. destruct Hin as [-> | Hin].
  - rewrite cadd_nan_r. apply fold_cadd_nan.
  - apply IH. exact Hin.
Qed.

Lemma nan_element_term (kk st sg : R) (gx gy : npfloat) :
  cexp_i (fadd (fmul (Fin kk) (distance gx gy (NaN, NaN)))
               (steering_phase kk st sg (NaN, NaN)))
  = (NaN, NaN).
Proof.
  unfold distance, fsub. cbn [fst snd fneg]. rewrite !fadd_nan_r.
  reflexivity.
Qed.

Lemma spec_field_nan (self : simulator) (gx gy : npfloat) :
  (exists info, In info (arrays_info self)
                /\ num_elements info = 1%Z /\ curvature info <> 0) ->
  spec_field self gx gy = (NaN, NaN).
Proof.
  intros [info [Hin [Hn Hc]]]. unfold spec_field, csum.
  apply fold_cadd_contains_nan. apply in_map_iff.
  exists (sigma info, (NaN, NaN)). split.
  - cbn [fst snd]. apply nan_element_term.
  - unfold elements. apply in_flat_map. exists info. split; [exact Hin |].
    apply in_map_iff. exists (NaN, NaN). split; [reflexivity |].
    rewrite Hn, (positions_single_curved _ _ Hc). left. reflexivity.
Qed.

Lemma fold_fmax_nan (vs : list npfloat) : fold_left fmax vs NaN = NaN.
Proof. induction vs as [| v vs IH]; simpl; [reflexivity | exact IH]. Qed.

(** X5: if any configured array is a single element on a curved arc, its
    [nan] position spreads to every grid point: the returned intensity map
    is [nan] everywhere, whatever the other arrays are. *)
Theorem single_curved_element_poisons_map (self : simulator)
    (x_range y_range : R * R) :
  (exists info, In info (arrays_info self)
                /\ num_elements info = 1%Z /\ curvature info <> 0) ->
  simulate_multiple_arrays x_range y_range self
  = (Ok (linspace (fst x_range) (snd x_range) 200,
         linspace (fst y_range) (snd y_range) 200,
         grid (linspace (fst x_range) (snd x_range) 200)
              (linspace (fst y_range) (snd y_range) 200)
              (fun _ _ => NaN)), self).
Proof.
  intros Hbad. rewrite simulate_multiple_arrays_eq.
  rewrite (grid_ext _ _
             (fun gx gy => squared_magnitude (spec_field self gx gy))
             (fun _ _ => NaN))
    by (intros a b; rewrite (spec_field_nan self a b Hbad); reflexivity).
  destruct (linspace_cons (fst x_range) (snd x_range) 199) as [v [l Hx]].
  destruct (linspace_cons (fst y_range) (snd y_range) 199) as [v' [l' Hy]].
  assert (Hmax : np_max (grid (linspace (fst x_range) (snd x_range) 200)
                              (linspace (fst y_range) (snd y_range) 200)
                              (fun _ _ => NaN)) = Ok NaN).
  { rewrite Hx, Hy.
    destruct (grid_concat_head v v' l l' (fun _ _ => NaN)) as [rest Hc].
    unfold np_max. rewrite Hc, fold_fmax_nan. reflexivity. }
  rewrite Hmax, arr_map_grid. reflexivity.
Qed.

Lemma single_curved_element_poisons_map_witness :
  let self :=
    mk_simulator 2.4e9 0 [mk_array_info 8 0.0625 0; mk_array_info 1 0.0625 90]
                 (3e8 / 2.4e9) (2 * PI / (3e8 / 2.4e9)) in
  (exists info, In info (arrays_info self)
                /\ num_elements info = 1%Z /\ curvature info <> 0)
  /\ fst (simulate_multiple_arrays (-10, 10) (0, 10) self)
     = Ok (linspace (-10) 10 200, linspace 0 10 200,
           grid (linspace (-10) 10 200) (linspace 0 10 200)
                (fun _ _ => NaN)).
Proof.
  intros self.
  assert (H : exists info, In info (arrays_info self)
                           /\ num_elements info = 1%Z /\ curvature info <> 0).
  { exists (mk_array_info 1 0.0625 90). split; [right; left; reflexivity |].
    split; [reflexivity | simpl; lra]. }
  split; [exact H |].
  rewrite (single_curved_element_poisons_map self (-10, 10) (0, 10) H).
  reflexivity.
Defined.

(** ** A single straight element radiates uniformly *)

Lemma single_element_intensity (f st w kk s a b : R) :
  intensity_R (mk_simulator f st [mk_array_info 1 s 0] w kk) (Fin a) (Fin b)
  = 1.
Proof.
  unfold intensity_R, spec_field, elements.
  cbn [arrays_info flat_map num_elements spacing curvature k steering_angle].
  rewrite positions_linear. change (range 1) with [0%Z].
  cbn [map app fst snd]. unfold csum. cbn [fold_left].
  pose proof (distance_fin a b (Fin (linear_x 1 s 0), Fin 0)
                (conj I I)) as Hd.
  destruct (distance (Fin a) (Fin b) (Fin (linear_x 1 s 0), Fin 0))
    as [d | |]; try contradiction.
  unfold steering_phase, cadd, czero, squared_magnitude, fsq.
  cbn [fst snd fmul fadd fcos fsin cexp_i to_R].
  match goal with
  | |- (0 + cos ?t) * _ + _ = 1 =>
      pose proof (sin2_cos2 t) as Ht; unfold Rsqr in Ht; lra
  end.
Qed.

(** X6: one straight array of a single element gives the same intensity,
    [1 / (1 + 1e-10)], at every grid point, for every frequency, steering
    angle, spacing and pair of ranges. *)
Theorem single_element_uniform_map (f st w kk s : R)
    (x_range y_range : R * R) :
  let self := mk_simulator f st [mk_array_info 1 s 0] w kk in
  simulate_multiple_arrays x_range y_range self
  = (Ok (linspace (fst x_range) (snd x_range) 200,
         linspace (fst y_range) (snd y_range) 200,
         grid (linspace (fst x_range) (snd x_range) 200)
              (linspace (fst y_range) (snd y_range) 200)
              (fun _ _ => Fin (1 / (1 + 1e-10)))), self).
Proof.
  intros self.
  assert (Hg : Forall finite_geometry (arrays_info self)).
  { constructor; [right; reflexivity | constructor]. }
  destruct (simulate_finite self x_range y_range Hg) as [Hsim [HM _]].
  rewrite Hsim. clear Hsim.
  apply grid_In in HM. destruct HM as [a [b [Ha [Hb HM]]]].
  apply linspace_In in Ha. apply linspace_In in Hb.
  destruct Ha as [ra ->]. destruct Hb as [rb ->].
  unfold self in HM at 2. rewrite single_element_intensity in HM.
  rewrite HM, arr_map_grid. do 3 f_equal.
  apply grid_ext_in. intros gx gy Hx Hy.
  apply linspace_In in Hx. apply linspace_In in Hy.
  destruct Hx as [rx ->]. destruct Hy as [ry ->].
  unfold self. rewrite single_element_intensity. reflexivity.
Qed.

(** ** Symmetries of the array factor of a straight array *)

Lemma radians_supplement (t : R) : sin (radians (180 - t)) = sin (radians t).
Proof.
  unfold radians.
  replace ((180 - t) * (PI / 180)) with (PI - t * (PI / 180)) by field.
  apply sin_PI_x.
Qed.

Lemma linear_af_ext (kk st : R) (n : Z) (s t t' : R) :
  sin (radians t') = sin (radians t) ->
  linear_af kk st n s t' = linear_af kk st n s t.
Proof.
  intros H. unfold linear_af.
  assert (Hp : forall i, linear_phase kk st n s t' i
                         = linear_phase kk st n s t i).
  { intros i. unfold linear_phase. rewrite H. ring. }
  rewrite (fold_left_ext
             (fun acc i => acc + cos (linear_phase kk st n s t' i))
             (fun acc i => acc + cos (linear_phase kk st n s t i)))
    by (intros; rewrite Hp; reflexivity).
  rewrite (fold_left_ext
             (fun acc i => acc + sin (linear_phase kk st n s t' i))
             (fun acc i => acc + sin (linear_phase kk st n s t i)))
    by (intros; rewrite Hp; reflexivity).
  reflexivity.
Qed.

Lemma straight_array_factor (f st : R) (c : array_info)
    (rest : list array_info) (w kk : R) (angles : list R) :
  curvature c = 0 ->
  calculate_array_factor (map Fin angles) (mk_simulator f st (c :: rest) w kk)
  = (Ok (map (fun t => Fin (linear_af kk st (num_elements c) (spacing c) t))
             angles),
     mk_simulator f st (c :: rest) w kk).
Proof.
  intros Hc. rewrite calculate_array_factor_first, map_map.
  do 2 f_equal. apply map_ext. intros t.
  apply linear_array_factor. exact Hc.
Qed.

(** X7: the array factor of a straight first array cannot tell front from
    back: the angles [t] and [180 - t] get the same value. *)
Theorem array_factor_front_back (f st : R) (c : array_info)
    (rest : list array_info) (w kk : R) (angles : list R) :
  curvature c = 0 ->
  calculate_array_factor (map Fin (map (fun t => 180 - t) angles))
    (mk_simulator f st (c :: rest) w kk)
  = calculate_array_factor (map Fin angles)
      (mk_simulator f st (c :: rest) w kk).
Proof.
  intros Hc. rewrite !straight_array_factor by exact Hc.
  rewrite map_map. do 2 f_equal. apply map_ext. intros t. f_equal.
  apply linear_af_ext. apply radians_supplement.
Qed.

Lemma array_factor_front_back_witness :
  let c := mk_array_info 8 0.0625 0 in
  let self :=
    mk_simulator 2.4e9 30 [c] (3e8 / 2.4e9) (2 * PI / (3e8 / 2.4e9)) in
  curvature c = 0
  /\ calculate_array_factor (map Fin (map (fun t => 180 - t) [10; 20])) self
     = calculate_array_factor (map Fin [10; 20]) self.
Proof.
  intros c self. split; [reflexivity |].
  exact (array_factor_front_back 2.4e9 30 c [] (3e8 / 2.4e9)
           (2 * PI / (3e8 / 2.4e9)) [10; 20] eq_refl).
Defined.

Lemma sum_negated_phase {E : Type} (ph ph' : E -> R) (l : list E) :
  (forall i, ph' i = - ph i) ->
  forall a b,
    fold_left (fun acc i => acc + cos (ph' i)) l a
    = fold_left (fun acc i => acc + cos (ph i)) l a
    /\ fold_left (fun acc i => acc + sin (ph' i)) l (- b)
       = - fold_left (fun acc i => acc + sin (ph i)) l b.
Proof.
  intros H. induction l as [| i l IH]; intros a b.
  - simpl. split; reflexivity.
  - cbn [fold_left]. rewrite H, cos_neg, sin_neg.
    replace (- b + - sin (ph i)) with (- (b + sin (ph i))) by ring.
    apply IH.
Qed.

Lemma linear_af_broadside (kk : R) (n : Z) (s t : R) :
  linear_af kk 0 n s (- t) = linear_af kk 0 n s t.
Proof.
  unfold linear_af.
  assert (Hp : forall i, linear_phase kk 0 n s (- t) i
                         = - linear_phase kk 0 n s t i).
  { intros i. unfold linear_phase, radians.
    replace (- t * (PI / 180)) with (- (t * (PI / 180))) by ring.
    replace (0 * (PI / 180)) with 0 by ring.
    rewrite sin_neg, sin_0. ring. }
  destruct (sum_negated_phase (linear_phase kk 0 n s t)
              (linear_phase kk 0 n s (- t)) (range n) Hp 0 0) as [H1 H2].
  rewrite Ropp_0 in H2. rewrite H1, H2. ring.
Qed.

(** X8: with steering angle 0 the array factor of a straight first array
    is an even function of the angle: [-t] and [t] get the same value. *)
Theorem array_factor_broadside_even (f : R) (c : array_info)
    (rest : list array_info) (w kk : R) (angles : list R) :
  curvature c = 0 ->
  calculate_array_factor (map Fin (map Ropp angles))
    (mk_simulator f 0 (c :: rest) w kk)
  = calculate_array_factor (map Fin angles)
      (mk_simulator f 0 (c :: rest) w kk).
Proof.
  intros Hc. rewrite !straight_array_factor by exact Hc.
  rewrite map_map. do 2 f_equal. apply map_ext. intros t. f_equal.
  apply linear_af_broadside.
Qed.

Lemma array_factor_broadside_even_witness :
  let c := mk_array_info 8 0.0625 0 in
  let self :=
    mk_simulator 2.4e9 0 [c] (3e8 / 2.4e9) (2 * PI / (3e8 / 2.4e9)) in
  curvature c = 0
  /\ calculate_array_factor (map Fin (map Ropp [10; 20])) self
     = calculate_array_factor (map Fin [10; 20]) self.
Proof.
  intros c self. split; [reflexivity |].
  exact (array_factor_broadside_even 2.4e9 c [] (3e8 / 2.4e9)
           (2 * PI / (3e8 / 2.4e9)) [10; 20] eq_refl).
Defined.

(** X9: with a non-empty configuration list [calculate_array_factor]
    returns exactly one value per requested angle, and when the first
    array has no elements ([num_elements <= 0]) every value is 0. *)
Theorem array_factor_shape (f st : R) (c : array_info)
    (rest : list array_info) (w kk : R) (angles : list npfloat) :
  (exists af,
     calculate_array_factor angles (mk_simulator f st (c :: rest) w kk)
     = (Ok af, mk_simulator f st (c :: rest) w kk)
     /\ length af = length angles)
  /\ ((num_elements c <= 0)%Z ->
      calculate_array_factor angles (mk_simulator f st (c :: rest) w kk)
      = (Ok (map (fun _ => Fin 0) angles),
         mk_simulator f st (c :: rest) w kk)).
Proof.
  split.
  - eexists. split; [apply calculate_array_factor_first |].
    apply length_map.
  - intros Hn. rewrite calculate_array_factor_first.
    do 2 f_equal. apply map_ext. intros theta.
    unfold spec_array_factor.
    assert (He : calculate_element_positions
                   (num_elements c) (spacing c) (curvature c) = []).
    { apply length_zero_iff_nil. rewrite positions_length. lia. }
    rewrite He. unfold csum, squared_magnitude, czero, fsq.
    cbn [map fold_left fst snd fmul fadd]. f_equal. ring.
Qed.

(** ** Constructor and setters *)

(** X10: the constructor raises [ZeroDivisionError] for frequency 0 and
    otherwise builds a simulator whose fields satisfy
    wavelength * frequency = 3e8 and wave number * wavelength = 2 pi. *)
Theorem constructor_behaviour (f st : R) (infos : list array_info) :
  init 0 st infos = Raise ZeroDivisionError
  /\ (f <> 0 ->
      exists self,
        init f st infos = Ok self
        /\ frequency self = f /\ steering_angle self = st
        /\ arrays_info self = infos
        /\ wavelength self * frequency self = 3e8
        /\ k self * wavelength self = 2 * PI).
Proof.
  split.
  - unfold init. rewrite pydiv_zero. reflexivity.
  - intros Hf. eexists. split; [apply init_nonzero; exact Hf |].
    cbn [frequency steering_angle arrays_info wavelength k].
    assert (Hw : 3e8 / f <> 0).
    { unfold Rdiv. apply Rmult_integral_contrapositive_currified; [lra |].
      apply Rinv_neq_0_compat. exact Hf. }
    repeat split; field; assumption.
Qed.

(** X11: [update_operating_frequency 0] raises [ZeroDivisionError] only
    after the frequency field was overwritten: the simulator is left with
    frequency 0 and the old wavelength and wave number, so
    wavelength * frequency = 3e8 no longer holds. *)
Theorem zero_frequency_partial_update (self : simulator) :
  let self' := snd (update_operating_frequency 0 self) in
  fst (update_operating_frequency 0 self) = Raise ZeroDivisionError
  /\ frequency self' = 0
  /\ wavelength self' = wavelength self
  /\ k self' = k self
  /\ steering_angle self' = steering_angle self
  /\ arrays_info self' = arrays_info self
  /\ wavelength self' * frequency self' <> 3e8.
Proof.
  intros self'. unfold self'. rewrite update_operating_frequency_zero.
  cbn [fst snd frequency wavelength k steering_angle arrays_info].
  repeat split. rewrite Rmult_0_r. lra.
Qed.

(** X12: a successful frequency update depends on the last frequency
    only: whatever update came before it, a failed one with frequency 0
    included, updating to [f2 <> 0] gives the same simulator as updating
    to [f2] directly. *)
Theorem last_frequency_update_wins (f1 f2 : R) (self : simulator) :
  f2 <> 0 ->
  update_operating_frequency f2 (snd (update_operating_frequency f1 self))
  = update_operating_frequency f2 self.
Proof.
  intros H2. rewrite !(update_operating_frequency_nonzero f2) by exact H2.
  destruct (Req_dec_T f1 0) as [-> | H1].
  - rewrite update_operating_frequency_zero. reflexivity.
  - rewrite (update_operating_frequency_nonzero f1) by exact H1. reflexivity.
Qed.

Lemma last_frequency_update_wins_witness :
  let self := mk_simulator 1e9 0 [] (3e8 / 1e9) (2 * PI / (3e8 / 1e9)) in
  2.4e9 <> 0
  /\ update_operating_frequency 2.4e9
       (snd (update_operating_frequency 0 self))
     = update_operating_frequency 2.4e9 self.
Proof.
  intros self.
  assert (H : 2.4e9 <> 0) by lra.
  split; [exact H |].
  exact (last_frequency_update_wins 0 2.4e9 self H).
Defined.

(** X13: the two setters commute: setting the steering angle before or
    after a frequency update leaves the same simulator, also when the
    frequency update fails. *)
Theorem setters_commute (f a : R) (self : simulator) :
  snd (update_steering_angle a (snd (update_operating_frequency f self)))
  = snd (update_operating_frequency f (snd (update_steering_angle a self))).
Proof.
  destruct (Req_dec_T f 0) as [-> | Hf].
  - rewrite !update_operating_frequency_zero. reflexivity.
  - rewrite !(update_operating_frequency_nonzero f) by exact Hf. reflexivity.
Qed.

(** * The configuration widget *)

Lemma get_in_range (index : Z) (cfgs : list config) :
  (1 <= index <= len cfgs)%Z ->
  exists c, nth_error cfgs (Z.to_nat (index - 1)) = Some c
            /\ get_array_configuration index cfgs = Ok c.
Proof.
  intros H. unfold get_array_configuration, len in *.
  assert (Hlt : (Z.to_nat (index - 1) < length cfgs)%nat) by lia.
  destruct (nth_error cfgs (Z.to_nat (index - 1))) as [c |] eqn:Hn.
  - exists c. split; [reflexivity |].
    replace ((0 <=? index - 1)%Z && (index - 1 <? Z.of_nat (length cfgs))%Z)
      with true; [reflexivity |].
    symmetry. apply andb_true_iff. split; [apply Z.leb_le | apply Z.ltb_lt]; lia.
  - apply nth_error_None in Hn. lia.
Qed.

Lemma get_out_of_range (index : Z) (cfgs : list config) :
  (index < 1 \/ len cfgs < index)%Z ->
  get_array_configuration index cfgs = Raise IndexError.
Proof.
  intros H. unfold get_array_configuration, len in *.
  replace ((0 <=? index - 1)%Z && (index - 1 <? Z.of_nat (length cfgs))%Z)
    with false; [reflexivity |].
  symmetry. apply andb_false_iff.
  destruct H; [left; apply Z.leb_gt | right; apply Z.ltb_ge]; lia.
Qed.

(** X14: [get_array_configuration] counts arrays from 1: an index between
    1 and the number of stored arrays returns that entry, and every other
    index, 0 and negative ones included, raises [IndexError]. *)
Theorem get_array_configuration_spec (index : Z) (cfgs : list config) :
  ((1 <= index <= len cfgs)%Z ->
     exists c, nth_error cfgs (Z.to_nat (index - 1)) = Some c
               /\ get_array_configuration index cfgs = Ok c)
  /\ ((index < 1 \/ len cfgs < index)%Z ->
      get_array_configuration index cfgs = Raise IndexError).
Proof. split; [apply get_in_range | apply get_out_of_range]. Qed.

Lemma get_eq_nth_error (index : Z) (cfgs cfgs' : list config) :
  len cfgs = len cfgs' ->
  nth_error cfgs (Z.to_nat (index - 1))
  = nth_error cfgs' (Z.to_nat (index - 1)) ->
  get_array_configuration index cfgs = get_array_configuration index cfgs'.
Proof.
  intros Hl Hn. unfold get_array_configuration. rewrite Hl, Hn. reflexivity.
Qed.

(** X15: an array added with [addArray] is read back under the next free
    number, and the arrays stored before keep their numbers and values. *)
Theorem add_then_get (sp : R) (n : Z) (c : R) (cfgs : list config) :
  get_array_configuration (len cfgs + 1) (addArray sp n c cfgs)
  = Ok (sp, n, c)
  /\ (forall i, (1 <= i <= len cfgs)%Z ->
        get_array_configuration i (addArray sp n c cfgs)
        = get_array_configuration i cfgs).
Proof.
  split.
  - destruct (get_in_range (len cfgs + 1) (addArray sp n c cfgs))
      as [c' [Hn Hget]].
    { unfold addArray, len. rewrite length_app. simpl. lia. }
    rewrite Hget. f_equal. unfold addArray, len in Hn.
    rewrite nth_error_app2 in Hn by lia.
    replace (Z.to_nat (Z.of_nat (length cfgs) + 1 - 1) - length cfgs)%nat
      with 0%nat in Hn by lia.
    simpl in Hn. congruence.
  - intros i Hi.
    destruct (get_in_range i cfgs Hi) as [c1 [Hn1 Hg1]].
    destruct (get_in_range i (addArray sp n c cfgs)) as [c2 [Hn2 Hg2]].
    { unfold addArray, len in *. rewrite length_app. simpl. lia. }
    rewrite Hg1, Hg2. f_equal. unfold addArray, len in *.
    rewrite nth_error_app1 in Hn2 by lia. congruence.
Qed.

(** X16: [editArray] ignores its index: on a non-empty widget it always
    overwrites array 1 and leaves every other array as it was; on an
    empty widget it raises [ValueError]. *)
Theorem edit_overwrites_first (index : Z) (sp : R) (n : Z) (c : R)
    (cfgs : list config) :
  (cfgs = [] -> editArray index sp n c cfgs = Raise ValueError)
  /\ (cfgs <> [] ->
      exists cfgs',
        editArray index sp n c cfgs = Ok cfgs'
        /\ len cfgs' = len cfgs
        /\ get_array_configuration 1 cfgs' = Ok (sp, n, c)
        /\ (forall i, i <> 1%Z ->
              get_array_configuration i cfgs'
              = get_array_configuration i cfgs)).
Proof.
  split.
  - intros ->. reflexivity.
  - intros Hne. destruct cfgs as [| c0 rest]; [congruence |].
    exists ((sp, n, c) :: rest).
    assert (Hed : editArray index sp n c (c0 :: rest)
                  = Ok ((sp, n, c) :: rest)).
    { unfold editArray, len.
      replace ((0 <=? 0)%Z && (0 <? Z.of_nat (length (c0 :: rest)))%Z)
        with true; [reflexivity |].
      symmetry. apply andb_true_iff.
      split; [apply Z.leb_le | apply Z.ltb_lt]; simpl length; lia. }
    split; [exact Hed |]. split; [reflexivity |]. split.
    + destruct (get_in_range 1 ((sp, n, c) :: rest)) as [c' [Hn Hg]].
      { unfold len. simpl length. lia. }
      rewrite Hg. simpl in Hn. injection Hn as <-. reflexivity.
    + intros i Hi. destruct (Z_lt_le_dec i 1) as [Hlt | Hge].
      * rewrite !get_out_of_range by (left; exact Hlt). reflexivity.
      * apply get_eq_nth_error; [reflexivity |].
        destruct (Z.to_nat (i - 1)) as [| j] eqn:Hj; [lia | reflexivity].
Qed.

Lemma firstn_len {A : Type} (j : nat) (l : list A) :
  len (firstn j l) = Z.min (Z.of_nat j) (len l).
Proof. unfold len. rewrite length_firstn. lia. Qed.

(** X17: [updateArrayNumber] never adds arrays: the result is always a
    prefix of the stored list; for a target [t >= 0] it keeps
    [min t (number stored)] arrays, and for a negative target it drops
    [-t] arrays from the end (Python's slice with a negative bound). *)
Theorem update_array_number_truncates (array_num : Z) (cfgs : list config) :
  (exists j, updateArrayNumber array_num cfgs = firstn j cfgs)
  /\ ((0 <= array_num)%Z ->
      len (updateArrayNumber array_num cfgs) = Z.min array_num (len cfgs))
  /\ ((array_num < 0)%Z ->
      len (updateArrayNumber array_num cfgs)
      = Z.max 0 (len cfgs + array_num)).
Proof.
  unfold updateArrayNumber, slice_to.
  destruct (array_num >? len cfgs)%Z eqn:Hgt.
  { apply Z.gtb_lt in Hgt. pose proof (Nat2Z.is_nonneg (length cfgs)).
    unfold len in *. split; [exists (length cfgs); symmetry; apply firstn_all |].
    split; intros; lia. }
  destruct (array_num <? len cfgs)%Z eqn:Hlt.
  - apply Z.ltb_lt in Hlt. destruct (array_num <? 0)%Z eqn:Hneg.
    + apply Z.ltb_lt in Hneg. split; [eexists; reflexivity |].
      rewrite firstn_len. unfold len in *. split; intros; lia.
    + apply Z.ltb_ge in Hneg. split; [eexists; reflexivity |].
      rewrite firstn_len. unfold len in *. split; intros; lia.
  - apply Z.ltb_ge in Hlt.
    assert (Hle : (array_num <= len cfgs)%Z).
    { destruct (Z.gtb_spec array_num (len cfgs)); [discriminate | assumption]. }
    pose proof (Nat2Z.is_nonneg (length cfgs)). unfold len in *.
    split; [exists (length cfgs); symmetry; apply firstn_all |].
    split; intros; lia.
Qed.

(** * The controller *)

Lemma range_from_In (a b i : Z) : In i (range_from a b) -> (a <= i < b)%Z.
Proof.
  unfold range_from. intros H. apply in_map_iff in H.
  destruct H as [j [<- Hj]]. apply in_seq in Hj. lia.
Qed.

Lemma range_from_length (a b : Z) :
  length (range_from a b) = Z.to_nat (b - a).
Proof. unfold range_from. rewrite length_map, length_seq. reflexivity. Qed.

(** ** The plotted array shape *)

Lemma range_In (n i : Z) : In i (range n) <-> (0 <= i < n)%Z.
Proof.
  unfold range. rewrite in_map_iff. split.
  - intros [j [<- Hj]]. apply in_seq in Hj. lia.
  - intros H. exists (Z.to_nat i). split; [lia | apply in_seq; lia].
Qed.

Lemma clamp_bounds (c : R) : 0 <= Rmax 0 (Rmin c 180) <= 180.
Proof.
  unfold Rmax, Rmin.
  destruct (Rle_dec c 180); destruct (Rle_dec 0 _); lra.
Qed.

Lemma clamp_nonpositive (c : R) : c <= 0 -> Rmax 0 (Rmin c 180) = 0.
Proof.
  intros H. unfold Rmax, Rmin.
  destruct (Rle_dec c 180); destruct (Rle_dec 0 _); lra.
Qed.

Lemma visualize_x_linear (n : Z) (s c : R) :
  fst (visualize_coords n s c) = map (linear_x n s) (range n).
Proof.
  unfold visualize_coords. cbn [fst]. apply map_ext. intros i.
  unfold linear_x. rewrite minus_IZR. field.
Qed.

Lemma visualize_heights_zero (n : Z) (s c : R) :
  c <= 0 -> forall y, In y (snd (visualize_coords n s c)) -> y = 0.
Proof.
  intros Hc y Hy. unfold visualize_coords in Hy. cbn [snd] in Hy.
  apply in_map_iff in Hy. destruct Hy as [x [<- _]].
  rewrite (clamp_nonpositive c Hc). lra.
Qed.

(** X20: [array_visualize] plots the elements at the x-coordinates the
    simulator uses for a straight array, whatever the curvature, at
    heights [a x^2] with [a] the curvature clamped to [0, 180] and divided
    by 10: heights are never negative and are all 0 for a curvature that
    is zero or negative. *)
Theorem visualize_coords_spec (n : Z) (s c : R) :
  calculate_element_positions n s 0
  = map (fun x => (Fin x, Fin 0)) (fst (visualize_coords n s c))
  /\ snd (visualize_coords n s c)
     = map (fun x => Rmax 0 (Rmin c 180) / 10 * x ^ 2)
           (fst (visualize_coords n s c))
  /\ 0 <= Rmax 0 (Rmin c 180) / 10 <= 18
  /\ Forall (fun y => 0 <= y) (snd (visualize_coords n s c))
  /\ (c <= 0 -> Forall (fun y => y = 0) (snd (visualize_coords n s c))).
Proof.
  pose proof (clamp_bounds c) as Hb.
  split; [| split; [reflexivity | split; [lra | split]]].
  - rewrite positions_linear, visualize_x_linear, map_map. reflexivity.
  - unfold visualize_coords. cbn [snd]. apply Forall_map, Forall_forall.
    intros x _. pose proof (pow2_ge_0 x). nra.
  - intros Hc. apply Forall_forall. apply visualize_heights_zero. exact Hc.
Qed.

Lemma fold_Rmin_le (vs : list R) :
  forall v, fold_left Rmin vs v <= v
            /\ forall p, In p vs -> fold_left Rmin vs v <= p.
Proof.
  induction vs as [| w vs IH]; intros v; simpl.
  - split; [lra | tauto].
  - destruct (IH (Rmin v w)) as [H1 H2].
    pose proof (Rmin_l v w). pose proof (Rmin_r v w).
    split; [lra |]. intros p [<- | Hp]; [lra | auto].
Qed.

Lemma fold_Rmin_In (vs : list R) :
  forall v, In (fold_left Rmin vs v) (v :: vs).
Proof.
  induction vs as [| w vs IH]; intros v; simpl.
  - left. reflexivity.
  - destruct (IH (Rmin v w)) as [H | H].
    + unfold Rmin in H at 1. destruct (Rle_dec v w); auto.
    + right. right. exact H.
Qed.

Lemma py_min_least (l : list R) (m : R) :
  In m l -> (forall p, In p l -> m <= p) -> py_min l = Ok m.
Proof.
  intros Hin Hle. destruct l as [| v vs]; [contradiction |].
  unfold py_min. f_equal. apply Rle_antisym.
  - destruct (fold_Rmin_le vs v) as [H1 H2].
    destruct Hin as [<- | Hin]; auto.
  - apply Hle. apply fold_Rmin_In.
Qed.

Lemma py_max_greatest (l : list R) (m : R) :
  In m l -> (forall p, In p l -> p <= m) -> py_max l = Ok m.
Proof.
  intros Hin Hle. destruct l as [| v vs]; [contradiction |].
  unfold py_max. f_equal. apply Rle_antisym.
  - apply Hle. apply fold_Rmax_In.
  - destruct (fold_Rmax_ge vs v) as [H1 H2].
    destruct Hin as [<- | Hin]; auto.
Qed.

Lemma py_min_max_ok (l : list R) :
  l <> [] ->
  exists lo hi, py_min l = Ok lo /\ py_max l = Ok hi
                /\ In lo l /\ In hi l.
Proof.
  destruct l as [| v vs]; [congruence |]. intros _.
  eexists _, _. repeat split; [apply fold_Rmin_In | apply fold_Rmax_In].
Qed.

Lemma visualize_x_min_max (n : Z) (s c : R) :
  (1 <= n)%Z -> 0 <= s ->
  py_min (fst (visualize_coords n s c)) = Ok (linear_x n s 0)
  /\ py_max (fst (visualize_coords n s c)) = Ok (linear_x n s (n - 1)).
Proof.
  intros Hn Hs. rewrite visualize_x_linear.
  assert (Hmono : forall i j, (i <= j)%Z -> linear_x n s i <= linear_x n s j).
  { intros i j Hij. unfold linear_x. apply IZR_le in Hij. nra. }
  split.
  - apply py_min_least.
    + apply in_map. apply range_In. lia.
    + intros p Hp. apply in_map_iff in Hp. destruct Hp as [i [<- Hi]].
      apply range_In in Hi. apply Hmono. lia.
  - apply py_max_greatest.
    + apply in_map. apply range_In. lia.
    + intros p Hp. apply in_map_iff in Hp. destruct Hp as [i [<- Hi]].
      apply range_In in Hi. apply Hmono. lia.
Qed.

(** X21: for at least one element and a non-negative spacing the x-axis
    range handed to the plot is symmetric and as wide as the element count
    times the spacing, [(-n s / 2, n s / 2)]; for a curvature that is zero
    or negative the y-axis range is [(-1, 1)]. *)
Theorem visualize_ranges_spec (n : Z) (s c : R) :
  (1 <= n)%Z -> 0 <= s ->
  exists y_lo y_hi,
    visualize_ranges n s c
    = Ok ((- (IZR n * s / 2), IZR n * s / 2), (y_lo, y_hi))
    /\ (c <= 0 -> y_lo = -1 /\ y_hi = 1).
Proof.
  intros Hn Hs.
  destruct (visualize_x_min_max n s c Hn Hs) as [Hxmin Hxmax].
  assert (Hyne : snd (visualize_coords n s c) <> []).
  { unfold visualize_coords. cbn [snd]. intros H.
    apply (f_equal (@length R)) in H. rewrite !length_map, range_length in H.
    simpl in H. lia. }
  destruct (py_min_max_ok _ Hyne) as [lo [hi [Hymin [Hymax [Hlo Hhi]]]]].
  unfold visualize_ranges.
  rewrite (surjective_pairing (visualize_coords n s c)).
  rewrite Hxmin, Hxmax, Hymin, Hymax.
  assert (Hhalf : 0.5 = 1 / 2) by lra. rewrite !Hhalf.
  replace (linear_x n s 0 - s * (1 / 2)) with (- (IZR n * s / 2))
    by (unfold linear_x; field).
  replace (linear_x n s (n - 1) + s * (1 / 2)) with (IZR n * s / 2)
    by (unfold linear_x; rewrite minus_IZR; field).
  eexists _, _. split; [reflexivity |].
  intros Hc.
  rewrite (visualize_heights_zero n s c Hc lo Hlo).
  rewrite (visualize_heights_zero n s c Hc hi Hhi).
  replace (0 - 0) with 0 by ring.
  destruct (Rlt_dec 0 0) as [H | _]; [lra |]. split; ring.
Qed.

Lemma visualize_ranges_spec_witness :
  (1 <= 8)%Z /\ 0 <= 0.0625 /\
  exists y_lo y_hi,
    visualize_ranges 8 0.0625 0
    = Ok ((- (8 * 0.0625 / 2), 8 * 0.0625 / 2), (y_lo, y_hi)).
Proof.
  assert (H1 : (1 <= 8)%Z) by lia.
  assert (H2 : 0 <= 0.0625) by lra.
  split; [exact H1 |]. split; [exact H2 |].
  destruct (visualize_ranges_spec 8 0.0625 0 H1 H2) as [lo [hi [H _]]].
  exists lo, hi. exact H.
Defined.

(** X22: with no elements ([num_elements <= 0]) the coordinate lists are
    empty and taking their minimum raises [ValueError]. *)
Theorem visualize_ranges_no_elements (n : Z) (s c : R) :
  (n <= 0)%Z -> visualize_ranges n s c = Raise ValueError.
Proof.
  intros Hn. unfold visualize_ranges, visualize_coords.
  assert (Hr : range n = []).
  { apply length_zero_iff_nil. rewrite range_length. lia. }
  rewrite Hr. reflexivity.
Qed.

Lemma visualize_ranges_no_elements_witness :
  (0 <= 0)%Z /\ visualize_ranges 0 0.0625 0 = Raise ValueError.
Proof.
  split; [lia |]. apply (visualize_ranges_no_elements 0 0.0625 0). lia.
Defined.

(** ** Scenario presets *)

(** X23: the scenario button starts with the 5G preset and then cycles
    through the three presets in order: toggling always moves to a
    different preset and three toggles come back to the same one. *)
Theorem scenario_cycle (s : scenario) :
  next_scenario None = FiveG
  /\ next_scenario (Some FiveG) = Ultrasound
  /\ next_scenario (Some Ultrasound) = TumorAblation
  /\ next_scenario (Some TumorAblation) = FiveG
  /\ next_scenario (Some s) <> s
  /\ next_scenario
       (Some (next_scenario (Some (next_scenario (Some s))))) = s.
Proof.
  repeat split; try reflexivity; destruct s; try reflexivity; discriminate.
Qed.

(** ** The steering sign of straight arrays *)

Lemma straight_steering_phase (kk st : R) (info : array_info) (e : position) :
  curvature info = 0 ->
  steering_phase kk st (sigma info) e = plain_steering_phase kk (- st) e.
Proof.
  intros Hc. unfold steering_phase, plain_steering_phase, sigma.
  destruct (Req_dec_T (curvature info) 0) as [_ | H]; [| contradiction].
  replace (-1 * radians st) with (radians (- st)) by (unfold radians; ring).
  replace (radians (- st)) with (- radians st) by (unfold radians; ring).
  rewrite cos_neg. reflexivity.
Qed.

Lemma straight_elements_terms (kk st : R) (gx gy : npfloat)
    (infos : list array_info) :
  Forall (fun info => curvature info = 0) infos ->
  map (fun se : R * position =>
         cexp_i (fadd (fmul (Fin kk) (distance gx gy (snd se)))
                      (steering_phase kk st (fst se) (snd se))))
      (elements infos)
  = map (fun e : position =>
           cexp_i (fadd (fmul (Fin kk) (distance gx gy e))
                        (plain_steering_phase kk (- st) e)))
        (flat_map (fun info =>
                     calculate_element_positions
                       (num_elements info) (spacing info) (curvature info))
                  infos).
Proof.
  intros H. induction H as [| info infos Hc _ IH].
  - reflexivity.
  - unfold elements in *. cbn [flat_map]. rewrite !map_app, IH. f_equal.
    rewrite map_map. apply map_ext. intros e. cbn [fst snd].
    rewrite (straight_steering_phase kk st info e Hc). reflexivity.
Qed.

(** X24: for straight arrays the grid simulation applies the steering
    phase of the array factor at the opposite angle: with only straight
    arrays configured, the field accumulated at steering angle [st] is the
    sum of exp(i (k distance + phi)) with the unsigned
    phi = -k (ex sin(rad(-st)) + ey cos(rad(-st))). *)
Theorem straight_arrays_steer_opposite (self : simulator)
    (x y : list npfloat) :
  Forall (fun info => curvature info = 0) (arrays_info self) ->
  accumulate_field self (fst (meshgrid x y)) (snd (meshgrid x y))
  = grid x y
      (fun gx gy =>
         csum
           (map (fun e : position =>
                   cexp_i (fadd (fmul (Fin (k self)) (distance gx gy e))
                                (plain_steering_phase
                                   (k self) (- steering_angle self) e)))
                (flat_map (fun info =>
                             calculate_element_positions
                               (num_elements info) (spacing info)
                               (curvature info))
                          (arrays_info self)))).
Proof.
  intros H. rewrite accumulate_field_meshgrid. apply grid_ext.
  intros gx gy. unfold spec_field.
  rewrite (straight_elements_terms _ _ gx gy _ H). reflexivity.
Qed.

Lemma straight_arrays_steer_opposite_witness :
  let self :=
    mk_simulator 2.4e9 30 [mk_array_info 8 0.0625 0]
                 (3e8 / 2.4e9) (2 * PI / (3e8 / 2.4e9)) in
  Forall (fun info => curvature info = 0) (arrays_info self)
  /\ accumulate_field self (fst (meshgrid [Fin 0] [Fin 1]))
                           (snd (meshgrid [Fin 0] [Fin 1]))
     = grid [Fin 0] [Fin 1]
         (fun gx gy =>
            csum
              (map (fun e : position =>
                      cexp_i (fadd (fmul (Fin (k self)) (distance gx gy e))
                                   (plain_steering_phase
                                      (k self) (- steering_angle self) e)))
                   (flat_map (fun info =>
                                calculate_element_positions
                                  (num_elements info) (spacing info)
                                  (curvature info))
                             (arrays_info self)))).
Proof.
  intros self.
  assert (H : Forall (fun info => curvature info = 0) (arrays_info self)).
  { constructor; [reflexivity | constructor]. }
  split; [exact H |].
  exact (straight_arrays_steer_opposite self [Fin 0] [Fin 1] H).
Defined.

(** ** The whole refresh method *)

Lemma visualize_ranges_fails (n : Z) (s c : R) :
  (n <= 0)%Z -> visualize_ranges n s c = Raise ValueError.
Proof.
  intros Hn. unfold visualize_ranges, visualize_coords.
  assert (Hr : range n = []).
  { apply length_zero_iff_nil. rewrite range_length. lia. }
  rewrite Hr. reflexivity.
Qed.

Lemma visualize_ranges_ok (n : Z) (s c : R) :
  (1 <= n)%Z -> exists rg, visualize_ranges n s c = Ok rg.
Proof.
  intros Hn.
  assert (Hxne : fst (visualize_coords n s c) <> []).
  { unfold visualize_coords. cbn [fst]. intros H.
    apply (f_equal (@length R)) in H. rewrite length_map, range_length in H.
    simpl in H. lia. }
  assert (Hyne : snd (visualize_coords n s c) <> []).
  { unfold visualize_coords. cbn [snd]. intros H.
    apply (f_equal (@length R)) in H. rewrite !length_map, range_length in H.
    simpl in H. lia. }
  destruct (py_min_max_ok _ Hxne) as [xlo [xhi [Hx1 [Hx2 _]]]].
  destruct (py_min_max_ok _ Hyne) as [ylo [yhi [Hy1 [Hy2 _]]]].
  unfold visualize_ranges.
  rewrite (surjective_pairing (visualize_coords n s c)).
  rewrite Hx1, Hx2, Hy1, Hy2. eexists. reflexivity.
Qed.

Lemma refill_body (cfgs : list config) (i : Z) :
  (1 <= i)%Z ->
  match get_array_configuration i cfgs with
  | Ok (spacing, num_elements, curvature) =>
      append_configuration (mk_array_info num_elements spacing curvature)
  | Raise IndexError => append_configuration default_info
  | Raise e => lift (Raise e)
  end
  = append_configuration (refreshed_entry cfgs i).
Proof.
  intros Hi. unfold refreshed_entry.
  destruct (Z_le_gt_dec i (len cfgs)) as [Hle | Hgt].
  - destruct (get_in_range i cfgs (conj Hi Hle)) as [c [Hn Hg]].
    rewrite Hg, Hn. destruct c as [[sp n] c]. reflexivity.
  - rewrite get_out_of_range by (right; lia).
    assert (Hn : nth_error cfgs (Z.to_nat (i - 1)) = None).
    { apply nth_error_None. unfold len in Hgt. lia. }
    rewrite Hn. reflexivity.
Qed.

Lemma for_each_append {A : Type} (g : A -> array_info) (body : A -> M unit)
    (l : list A) :
  (forall a, In a l -> body a = append_configuration (g a)) ->
  forall self,
    for_each l body self
    = (Ok tt,
       mk_simulator (frequency self) (steering_angle self)
                    (arrays_info self ++ map g l)
                    (wavelength self) (k self)).
Proof.
  induction l as [| a l IH]; intros Hb self.
  - simpl. unfold ret. rewrite app_nil_r. destruct self; reflexivity.
  - cbn [for_each]. unfold bind. rewrite (Hb a (or_introl eq_refl)).
    unfold append_configuration at 1.
    rewrite IH by (intros a' Ha'; apply Hb; right; exact Ha').
    cbn [frequency steering_angle arrays_info wavelength k map].
    rewrite <- app_assoc. reflexivity.
Qed.

Lemma refill_configurations_eq (cfgs : list config) (num : Z)
    (self : simulator) :
  refill_configurations cfgs num self = (Ok tt, refilled cfgs num self).
Proof.
  unfold refill_configurations, bind, clear_configurations.
  rewrite (for_each_append (refreshed_entry cfgs)).
  - reflexivity.
  - intros i Hi. apply range_from_In in Hi. apply refill_body. lia.
Qed.

Lemma refilled_length (cfgs : list config) (num : Z) (self : simulator) :
  length (arrays_info (refilled cfgs num self)) = Z.to_nat num.
Proof.
  unfold refilled. cbn [arrays_info].
  rewrite length_map, range_from_length. f_equal. lia.
Qed.

Lemma calculate_array_factor_snd (angles : list npfloat) (self : simulator) :
  snd (calculate_array_factor angles self) = self.
Proof.
  unfold calculate_array_factor, bind, get, lift, ret.
  destruct (index0 (arrays_info self)); reflexivity.
Qed.

Lemma apply_configurations_snd (self : simulator) :
  snd (apply_configurations_to_visualization self) = self.
Proof.
  unfold apply_configurations_to_visualization, bind.
  rewrite simulate_multiple_arrays_eq.
  destruct (np_max _) as [mx | e]; [| reflexivity].
  pose proof (calculate_array_factor_snd (linspace (-90) 90 500) self) as H.
  destruct (calculate_array_factor (linspace (-90) 90 500) self)
    as [[af | e] self'];
    cbn [snd] in H; subst self'; reflexivity.
Qed.

Lemma update_and_refresh_snd (cfgs : list config) (num : Z) (slider : R)
    (self : simulator) :
  snd (update_and_refresh_arrays_info cfgs num slider self)
  = refilled cfgs num self.
Proof.
  unfold update_and_refresh_arrays_info, bind at 1.
  rewrite refill_configurations_eq.
  unfold bind at 1, lift at 1.
  destruct (get_array_configuration 1 cfgs) as [[[sp n] c] | e];
    [| reflexivity].
  unfold bind, lift at 1.
  destruct (visualize_ranges n slider c) as [rg | e]; [| reflexivity].
  apply apply_configurations_snd.
Qed.

Lemma update_and_refresh_empty_widget (num : Z) (slider : R)
    (self : simulator) :
  fst (update_and_refresh_arrays_info [] num slider self) = Raise IndexError.
Proof.
  unfold update_and_refresh_arrays_info, bind at 1.
  rewrite refill_configurations_eq. reflexivity.
Qed.

(** X18: whether it returns or raises, [update_and_refresh_arrays_info]
    changes the simulator's [arrays_info] only (the controller's list is
    that very object): whatever it held is discarded, and it ends with one
    entry per array number from 1 to [current_arrays_number], the widget's
    entry where the widget has one and the default (64 elements, spacing
    0.05, curvature 0) otherwise.  On an empty widget the method raises
    [IndexError] at the lookup of array 1, after the list was already
    rebuilt from defaults. *)
Theorem refresh_rebuilds_configurations (cfgs : list config) (num : Z)
    (slider : R) (self : simulator) :
  let out := update_and_refresh_arrays_info cfgs num slider self in
  snd out
  = mk_simulator (frequency self) (steering_angle self)
                 (map (refreshed_entry cfgs) (range_from 1 (num + 1)))
                 (wavelength self) (k self)
  /\ length (arrays_info (snd out)) = Z.to_nat num
  /\ (forall i sp n c,
        nth_error cfgs (Z.to_nat (i - 1)) = Some (sp, n, c) ->
        refreshed_entry cfgs i = mk_array_info n sp c)
  /\ (forall i, (len cfgs < i)%Z -> refreshed_entry cfgs i = default_info)
  /\ (cfgs = [] ->
      fst out = Raise IndexError
      /\ arrays_info (snd out)
         = map (fun _ => default_info) (range_from 1 (num + 1))).
Proof.
  intros out. unfold out. rewrite update_and_refresh_snd.
  split; [reflexivity |]. split; [apply refilled_length |].
  split; [| split].
  - intros i sp n c Hn. unfold refreshed_entry. rewrite Hn. reflexivity.
  - intros i Hi. unfold refreshed_entry.
    assert (Hn : nth_error cfgs (Z.to_nat (i - 1)) = None).
    { apply nth_error_None. unfold len in Hi. lia. }
    rewrite Hn. reflexivity.
  - intros ->. split; [apply update_and_refresh_empty_widget |].
    unfold refilled. cbn [arrays_info]. apply map_ext. intros i.
    unfold refreshed_entry. destruct (Z.to_nat (i - 1)); reflexivity.
Qed.

Lemma simulate_ok (x_range y_range : R * R) (self : simulator) :
  exists r, simulate_multiple_arrays x_range y_range self = (Ok r, self)
            /\ length (snd r) = 200%nat.
Proof.
  destruct (np_max_grid_ok (fst x_range) (snd x_range)
              (fst y_range) (snd y_range)
              (fun gx gy => squared_magnitude (spec_field self gx gy)))
    as [mx Hmx].
  eexists. split.
  - rewrite simulate_multiple_arrays_eq, Hmx. reflexivity.
  - cbn [snd]. unfold arr_map. rewrite length_map.
    rewrite (proj1 (grid_length _ _ _)). apply linspace_length.
Qed.

Lemma apply_configurations_fst (self : simulator) :
  (arrays_info self = [] ->
   fst (apply_configurations_to_visualization self) = Raise IndexError)
  /\ (arrays_info self <> [] ->
      exists intensity af,
        fst (apply_configurations_to_visualization self)
        = Ok (intensity, af)
        /\ length intensity = 200%nat /\ length af = 500%nat).
Proof.
  destruct (simulate_ok (-10, 10) (0, 10) self) as [[[x y] I] [Hsim HI]].
  cbn [snd] in HI.
  unfold apply_configurations_to_visualization, bind. rewrite Hsim.
  destruct self as [f st infos w kk]. cbn [arrays_info].
  split.
  - intros ->. reflexivity.
  - intros Hne. destruct infos as [| c rest]; [congruence |].
    rewrite calculate_array_factor_first. unfold ret. cbn [fst].
    eexists _, _. split; [reflexivity |]. split; [exact HI |].
    rewrite length_map. apply linspace_length.
Qed.

(** X19: the outcome of [update_and_refresh_arrays_info].  It raises
    [IndexError] when the widget holds no array (the lookup of array 1 is
    outside the [try]); [ValueError] when the widget's first array has no
    elements (the minimum of an empty coordinate list); [IndexError] from
    the beam profile when the first array has elements but the number of
    arrays is zero or negative; and otherwise it returns a map of 200 rows
    and a profile of 500 values. *)
Theorem refresh_outcome (cfgs : list config) (num : Z) (slider : R)
    (self : simulator) :
  let out := fst (update_and_refresh_arrays_info cfgs num slider self) in
  (cfgs = [] -> out = Raise IndexError)
  /\ (forall sp n c rest, cfgs = (sp, n, c) :: rest ->
        ((n <= 0)%Z -> out = Raise ValueError)
        /\ ((1 <= n)%Z -> (num <= 0)%Z -> out = Raise IndexError)
        /\ ((1 <= n)%Z -> (1 <= num)%Z ->
            exists intensity af,
              out = Ok (intensity, af)
              /\ length intensity = 200%nat /\ length af = 500%nat)).
Proof.
  intros out. unfold out. split.
  - intros ->. apply update_and_refresh_empty_widget.
  - intros sp n c rest ->.
    assert (Hget : get_array_configuration 1 ((sp, n, c) :: rest)
                   = Ok (sp, n, c)).
    { destruct (get_in_range 1 ((sp, n, c) :: rest)) as [c' [Hn Hg]].
      { unfold len. simpl length. lia. }
      rewrite Hg. simpl in Hn. injection Hn as <-. reflexivity. }
    assert (Hout :
              update_and_refresh_arrays_info ((sp, n, c) :: rest) num slider
                self
              = match visualize_ranges n slider c with
                | Ok _ =>
                    apply_configurations_to_visualization
                      (refilled ((sp, n, c) :: rest) num self)
                | Raise e =>
                    (Raise e, refilled ((sp, n, c) :: rest) num self)
                end).
    { unfold update_and_refresh_arrays_info, bind at 1.
      rewrite refill_configurations_eq.
      unfold bind at 1, lift at 1. rewrite Hget.
      cbv beta iota zeta delta [bind lift]. reflexivity. }
    rewrite Hout. clear Hout.
    pose proof (refilled_length ((sp, n, c) :: rest) num self) as Hlen.
    destruct (apply_configurations_fst
                (refilled ((sp, n, c) :: rest) num self)) as [Hemp Hfull].
    split; [| split].
    + intros Hn. rewrite (visualize_ranges_fails n slider c Hn). reflexivity.
    + intros Hn Hnum.
      destruct (visualize_ranges_ok n slider c Hn) as [rg Hrg].
      rewrite Hrg. apply Hemp. apply length_zero_iff_nil.
      rewrite Hlen. lia.
    + intros Hn Hnum.
      destruct (visualize_ranges_ok n slider c Hn) as [rg Hrg].
      rewrite Hrg. apply Hfull. intros Hnil.
      apply (f_equal (@length array_info)) in Hnil.
      rewrite Hlen in Hnil. simpl in Hnil. lia.
Qed.

